(** * GraphHopper Maps: query store and routing client

    A shallow embedding of [src/stores/QueryStore.ts] (the reducer of the
    query state machine) and of the pure parts of [src/routing/Api.ts]
    (request construction, polyline decoding, instruction slicing),
    followed by the properties the specification states about them.

    Conventions of the embedding:
    - a JavaScript [number] that holds a coordinate, a distance or a time is
      a binary64 [float]; JavaScript arithmetic on it is the primitive
      IEEE-754 arithmetic of [PrimFloat];
    - a [number] that holds an identifier, an index or a 32-bit intermediate
      of a bit operation is a [Z], and a sum of two of them is the sum in
      [Z]: this is the binary64 sum as long as it stays within 2^53 in
      magnitude (from 2^53 on the binary64 sum [nextId + 1] is [nextId]
      again), the range for which the theorems on [nextId] are stated; the
      32-bit wrap-around of the bit operators is written out in [Js];
    - [undefined] is [None];
    - the calls of [route] a transition makes are returned next to the new
      state, in the order they are made; a [TypeError] thrown while the
      reducer runs is the outcome [None]. *)

From Stdlib Require Import ZArith QArith Qabs Uint63 Ascii String DecimalString.
From Stdlib Require Import Floats.PrimFloat Floats.SpecFloat Floats.FloatOps.
From stdpp Require Import base tactics option list strings.

Set Warnings "-inexact-float".
Open Scope Z_scope.

(** ** JavaScript primitives used by the sources *)

Module Js.

(** [ToInt32]: reduction modulo 2^32 into the signed range. *)
Definition toInt32 (z : Z) : Z := (z + 2 ^ 31) mod 2 ^ 32 - 2 ^ 31.

(** [a & b], [a | b], [~a] on 32-bit integers. *)
Definition and32 (a b : Z) : Z := Z.land (toInt32 a) (toInt32 b).
Definition or32 (a b : Z) : Z := Z.lor (toInt32 a) (toInt32 b).
Definition not32 (a : Z) : Z := Z.lnot (toInt32 a).

(** [a << s] and [a >> s]: the shift count is taken modulo 32, the left
    shift wraps around, the right shift keeps the sign. *)
Definition shl32 (a s : Z) : Z := toInt32 (Z.shiftl (toInt32 a) (s mod 32)).
Definition sar32 (a s : Z) : Z := Z.shiftr (toInt32 a) (s mod 32).

(** The binary64 value of an integer (exact below 2^53 in magnitude). *)
Definition numberOfZ (z : Z) : float :=
  if z <? 0 then PrimFloat.opp (PrimFloat.of_uint63 (Uint63.of_Z (- z)))
  else PrimFloat.of_uint63 (Uint63.of_Z z).

(** The UTF-16 code units of a string (here: of its bytes). *)
Definition codeUnits (s : string) : list Z :=
  (λ a, Z.of_N (N_of_ascii a)) <$> list_ascii_of_string s.

(** [Array.prototype.slice(start, end)] on integer arguments: a negative
    index counts from the end, every index is clamped to [0, length]. *)
Definition relativeIndex (len i : Z) : Z :=
  if i <? 0 then Z.max (len + i) 0 else Z.min i len.

Definition slice {A} (l : list A) (start end_ : Z) : list A :=
  let len := Z.of_nat (length l) in
  let k := relativeIndex len start in
  let final := relativeIndex len end_ in
  take (Z.to_nat (final - k)) (drop (Z.to_nat k) l).

(** [Array.prototype.splice(start, 0, item)]: insertion, same clamping. *)
Definition spliceInsert {A} (l : list A) (start : Z) (item : A) : list A :=
  let k := Z.to_nat (relativeIndex (Z.of_nat (length l)) start) in
  take k l ++ item :: drop k l.

(** The exact rational value of a finite binary64 number. *)
Definition toQ (x : float) : option Q :=
  match Prim2SF x with
  | S754_zero _ => Some 0%Q
  | S754_finite s m e =>
      let mag := (if e <? 0 then Z.pos m # Z.to_pos (2 ^ (- e))
                  else inject_Z (Z.pos m * 2 ^ e))%Q in
      Some (if s then Qopp mag else mag)
  | _ => None
  end.

(** [x] is finite and within [tol] of the rational [q]. *)
Definition within (tol : Q) (x : float) (q : Q) : bool :=
  match toQ x with
  | Some v => Qle_bool (Qabs (v - q)) tol
  | None => false
  end.

End Js.

(** ** The routing client, [src/routing/Api.ts] *)

Module Api.

Record RoutingArgs := {
  points : list (float * float);
  host : option string;
  basePath : option string;
  vehicle : option string;
  (* properties outside the interface that the query store passes along *)
  key : option string;
  args_points_encoded : option bool;
}.

Inductive Algorithm := alternative_route | round_trip.

Record RoutingRequest := {
  req_points : list (float * float);
  req_vehicle : string;
  locale : string;
  debug : bool;
  points_encoded : bool;
  req_instructions : bool;
  elevation : bool;
  optimize : string;
  alternative_route_max_paths : option Z;
  ch_disable : option bool;
  algorithm : option Algorithm;
}.

Record RoutingFeature := { feature_elevation : bool }.

Record RoutingVehicle := {
  vehicle_key : string;
  version : string;
  import_date : string;
  features : RoutingFeature;
}.

Record ApiInfo := {
  info_import_date : string;
  info_version : string;
  bbox : float * float * float * float;
  vehicles : list RoutingVehicle;
}.

Record LineString := {
  type : string;
  coordinates : list (list float);
}.

Record Instruction := {
  distance : float;
  interval : Z * Z;
  instr_points : list (list float);
  sign : Z;
  text : string;
  time : float;
}.

Record Path := {
  path_distance : float;
  path_time : float;
  path_points_encoded : bool;
  instructions : option (list Instruction);
  path_points : LineString;
  snapped_waypoints : LineString;
}.

Definition ghKey : string := "fb45b8b2-fdda-4093-ac1a-8b57b4e50add".

(** [a || b] on a possibly absent string: the empty string is falsy. *)
Definition orString (a : option string) (b : string) : string :=
  match a with
  | Some s => if String.eqb s "" then b else s
  | None => b
  end.

Definition createRequest (args : RoutingArgs) : RoutingRequest :=
  {| req_vehicle := orString (vehicle args) "car";
     elevation := false;
     debug := false;
     req_instructions := true;
     locale := "en";
     optimize := "false";
     points_encoded := true;
     alternative_route_max_paths := Some 2;
     ch_disable := Some true;
     algorithm := Some alternative_route;
     req_points := points args |}.

Definition setPointsOnInstructions (path : Path) : option (list Instruction) :=
  match instructions path with
  | Some instrs =>
      Some ((λ instruction,
              {| distance := distance instruction;
                 interval := interval instruction;
                 sign := sign instruction;
                 text := text instruction;
                 time := time instruction;
                 instr_points :=
                   Js.slice (coordinates (path_points path))
                     (fst (interval instruction))
                     (snd (interval instruction) + 1) |}) <$> instrs)
  | None => instructions path
  end.

(** One [do { ... } while (b >= 0x20)] loop of [decodePath].  [rest] is
    the part of [encoded] from [index] on; reading past the end gives
    [NaN], for which [b & 0x1f] is 0 and [b >= 0x20] is false. *)
Fixpoint readChunks (rest : list Z) (shift result : Z) : Z * list Z :=
  match rest with
  | [] => (Js.or32 result (Js.shl32 0 shift), [])
  | c :: rest' =>
      let b := c - 63 in
      let result := Js.or32 result (Js.shl32 (Js.and32 b 0x1f) shift) in
      let shift := shift + 5 in
      if 0x20 <=? b then readChunks rest' shift result else (result, rest')
  end.

(** [result & 1 ? ~(result >> 1) : result >> 1] *)
Definition unzigzag (result : Z) : Z :=
  if Js.and32 result 1 =? 0 then Js.sar32 result 1
  else Js.not32 (Js.sar32 result 1).

(** The [while (index < len)] loop; every iteration consumes at least one
    character, so [length rest] iterations are enough (see
    [decodeLoop_fuel]). *)
Fixpoint decodeLoop (fuel : nat) (is3D : bool) (rest : list Z)
    (lat lng ele : float) (array : list (list float)) : list (list float) :=
  match fuel, rest with
  | _, [] => array
  | O, _ => array
  | S fuel, _ =>
      let '(result, rest) := readChunks rest 0 0 in
      let deltaLat := unzigzag result in
      let lat := (lat + Js.numberOfZ deltaLat)%float in
      let '(result, rest) := readChunks rest 0 0 in
      let deltaLon := unzigzag result in
      let lng := (lng + Js.numberOfZ deltaLon)%float in
      if is3D then
        let '(result, rest) := readChunks rest 0 0 in
        let deltaEle := unzigzag result in
        let ele := (ele + Js.numberOfZ deltaEle)%float in
        decodeLoop fuel is3D rest lat lng ele
          (array ++ [[(lng * 1e-5)%float; (lat * 1e-5)%float; (ele / 100)%float]])
      else
        decodeLoop fuel is3D rest lat lng ele
          (array ++ [[(lng * 1e-5)%float; (lat * 1e-5)%float]])
  end.

Definition decodePath (encoded : string) (is3D : bool) : list (list float) :=
  let units := Js.codeUnits encoded in
  decodeLoop (length units) is3D units 0%float 0%float 0%float [].

End Api.


(** ** The query store, [src/stores/QueryStore.ts] *)

Module QueryStore.

Record Coordinate := { lat : float; lng : float }.

Inductive QueryPointType := From | To | Via.

(** [point] is not a field of the interface: it is the property that the
    [ClearPoints] branch writes next to the declared ones, and that every
    object spread copies along. *)
Record QueryPoint := {
  coordinate : Coordinate;
  queryText : string;
  isInitialized : bool;
  color : string;
  id : Z;
  type : QueryPointType;
  point : option Coordinate;
}.

Record QueryStoreState := {
  queryPoints : list QueryPoint;
  nextId : Z;
  routingVehicle : option Api.RoutingVehicle;
}.

(** The action catalog, [src/actions/Actions.ts]. *)
Record RoutingResult := {
  info_copyright : list string;
  info_took : float;
  paths : list Api.Path;
}.

Inductive Action :=
| InfoReceived (result : Api.ApiInfo)
| SetPoint (point : QueryPoint)
| SetVehicle (vehicle : Api.RoutingVehicle)
| AddPoint (atIndex : Z) (coordinate : Coordinate) (isInitialized : bool)
| ClearPoints
| RemovePoint (point : QueryPoint)
| InvalidatePoint (point : QueryPoint)
| RouteReceived (result : RoutingResult)
| ClearRoute.

Definition getMarkerColor (type : QueryPointType) : string :=
  match type with
  | From => "#417900"
  | To => "#F97777"
  | _ => "#76D0F7"
  end.

Definition getPointType (index numberOfPoints : Z) : QueryPointType :=
  if index =? 0 then From
  else if index =? numberOfPoints - 1 then To
  else Via.

(** The calls of [route] made: none when the guard fails, one otherwise.
    Reading [state.routingVehicle.key] of an undefined vehicle throws. *)
Definition routeIfAllPointsSet (state : QueryStoreState)
    : option (list Api.RoutingArgs) :=
  if (1 <? Z.of_nat (length (queryPoints state)))
     && forallb isInitialized (queryPoints state)
  then
    let rawPoints :=
      (λ point, (lng (coordinate point), lat (coordinate point)))
        <$> queryPoints state in
    vehicle ← routingVehicle state;
    Some [ {| Api.points := rawPoints;
              Api.key := Some Api.ghKey;
              Api.args_points_encoded := Some false;
              Api.vehicle := Some (Api.vehicle_key vehicle);
              Api.host := None;
              Api.basePath := None |} ]
  else Some [].

Definition getEmptyPoint (id : Z) (type : QueryPointType) : QueryPoint :=
  {| isInitialized := false;
     queryText := "";
     coordinate := {| lng := 0; lat := 0 |};
     id := id;
     color := getMarkerColor type;
     type := type;
     point := None |}.

Definition getInitialState : QueryStoreState :=
  {| queryPoints := [getEmptyPoint 0 From; getEmptyPoint 1 To];
     nextId := 2;
     routingVehicle :=
       Some {| Api.vehicle_key := "";
               Api.import_date := "";
               Api.version := "";
               Api.features := {| Api.feature_elevation := false |} |} |}.

Definition replace (points : list QueryPoint) (newPoint : QueryPoint)
    : list QueryPoint :=
  (λ point, if id point =? id newPoint then newPoint else point) <$> points.

(** [{ ...point, color: getMarkerColor(type), type: type }] *)
Definition withType (point : QueryPoint) (type : QueryPointType) : QueryPoint :=
  {| coordinate := coordinate point;
     queryText := queryText point;
     isInitialized := isInitialized point;
     id := id point;
     point := QueryStore.point point;
     color := getMarkerColor type;
     type := type |}.

Section Reducer.

(** [Number.prototype.toString], used by string concatenation. *)
Variable numberToString : float → string.

Definition reduce (state : QueryStoreState) (action : Action)
    : option (QueryStoreState * list Api.RoutingArgs) :=
  match action with
  | SetPoint point =>
      let newState :=
        {| queryPoints := replace (queryPoints state) point;
           nextId := nextId state;
           routingVehicle := routingVehicle state |} in
      calls ← routeIfAllPointsSet newState;
      Some (newState, calls)
  | InvalidatePoint point =>
      let points :=
        replace (queryPoints state)
          {| coordinate := coordinate point;
             queryText := queryText point;
             color := color point;
             id := id point;
             type := type point;
             point := QueryStore.point point;
             isInitialized := false |} in
      Some ({| queryPoints := points;
               nextId := nextId state;
               routingVehicle := routingVehicle state |}, [])
  | ClearPoints =>
      let newPoints :=
        (λ point,
           {| coordinate := coordinate point;
              color := color point;
              id := id point;
              type := type point;
              queryText := "";
              point := Some {| lat := 0; lng := 0 |};
              isInitialized := false |}) <$> queryPoints state in
      Some ({| queryPoints := newPoints;
               nextId := nextId state;
               routingVehicle := routingVehicle state |}, [])
  | AddPoint atIndex coordinate isInitialized =>
      let queryText :=
        if isInitialized
        then numberToString (lng coordinate) +:+ ", "
               +:+ numberToString (lat coordinate)
        else "" in
      let tmp :=
        Js.spliceInsert (queryPoints state) atIndex
          {| coordinate := coordinate;
             id := nextId state;
             queryText := queryText;
             color := "";
             isInitialized := isInitialized;
             type := Via;
             point := None |} in
      let newPoints :=
        imap (λ i point,
                withType point
                  (getPointType (Z.of_nat i) (Z.of_nat (length tmp)))) tmp in
      let newState :=
        {| nextId := nextId state + 1;
           queryPoints := newPoints;
           routingVehicle := routingVehicle state |} in
      calls ← routeIfAllPointsSet newState;
      Some (newState, calls)
  | RemovePoint point =>
      let newPoints :=
        imap (λ i point,
                withType point
                  (getPointType (Z.of_nat i)
                     (Z.of_nat (length (queryPoints state)) - 1)))
          (filter (λ point', id point' ≠ id point) (queryPoints state)) in
      let newState :=
        {| queryPoints := newPoints;
           nextId := nextId state;
           routingVehicle := routingVehicle state |} in
      calls ← routeIfAllPointsSet newState;
      Some (newState, calls)
  | InfoReceived result =>
      let car :=
        find (λ vehicle, String.eqb (Api.vehicle_key vehicle) "car")
          (Api.vehicles result) in
      Some ({| queryPoints := queryPoints state;
               nextId := nextId state;
               routingVehicle :=
                 match car with
                 | Some car => Some car
                 | None => Api.vehicles result !! 0%nat
                 end |}, [])
  | SetVehicle vehicle =>
      let newState :=
        {| queryPoints := queryPoints state;
           nextId := nextId state;
           routingVehicle := Some vehicle |} in
      calls ← routeIfAllPointsSet newState;
      Some (newState, calls)
  | _ => Some (state, [])
  end.

(** Modelled from the spec: the holder of the state, the base class
    [Store] of [src/stores/Store.ts], is not among the sources.  It
    applies the reducer to the held state and the action received and
    keeps the result; a transition that throws leaves the held state as
    it was (section 7: the state remains usable for new input). *)
Definition receive (state : QueryStoreState) (action : Action)
    : QueryStoreState * list Api.RoutingArgs :=
  match reduce state action with
  | Some result => result
  | None => (state, [])
  end.

(** The state after a sequence of actions, and the calls of [route]
    made on the way. *)
Fixpoint session (state : QueryStoreState) (actions : list Action)
    : QueryStoreState * list Api.RoutingArgs :=
  match actions with
  | [] => (state, [])
  | action :: actions =>
      let '(state', calls) := receive state action in
      let '(final, calls') := session state' actions in
      (final, calls ++ calls')
  end.


End Reducer.

End QueryStore.

(** ** Vocabulary of the properties, and the data of the examples *)

Section ApiVocabulary.

Import Api.

(** A path of five points with one instruction over [[0, 2]]. *)
Definition fivePointPath : Path :=
  {| path_distance := 0; path_time := 0; path_points_encoded := false;
     instructions :=
       Some [ {| distance := 0; interval := (0, 2); instr_points := [];
                 sign := 0; text := "Continue"; time := 0 |} ];
     path_points :=
       {| type := "LineString";
          coordinates := [[0; 0]; [1; 0]; [2; 0]; [3; 0]; [4; 0]]%float |};
     snapped_waypoints := {| type := "LineString"; coordinates := [] |} |}.

(** The arguments the query store passes while the profile is still the
    initial one, whose key is the empty string. *)
Definition initialProfileArgs : RoutingArgs :=
  {| points := [(0, 0); (1, 1)]%float;
     host := None; basePath := None;
     vehicle := Some "";
     key := Some ghKey;
     args_points_encoded := Some false |}.

End ApiVocabulary.

Section QueryStoreVocabulary.

Import QueryStore.

(** The state is ready for routing: at least two waypoints, all of them
    initialized. *)
Definition routeReady (state : QueryStoreState) : Prop :=
  (2 ≤ length (queryPoints state))%nat
  ∧ Forall (λ p, isInitialized p = true) (queryPoints state).

(** The transitions that end with [routeIfAllPointsSet]. *)
Definition triggersRouting (action : Action) : bool :=
  match action with
  | SetPoint _ | AddPoint _ _ _ | RemovePoint _ | SetVehicle _ => true
  | _ => false
  end.

Definition isAddPoint (action : Action) : bool :=
  match action with AddPoint _ _ _ => true | _ => false end.

(** The roles and colors as the specification words them: the first
    waypoint is the start, the last of at least two is the end, those in
    between are vias, and the color is the one of the role. *)
Definition rolesAsSpecified (points : list QueryPoint) : Prop :=
  ∀ (i : nat) (p : QueryPoint), points !! i = Some p →
    (i = 0%nat → type p = From)
    ∧ ((2 ≤ length points)%nat → i = (length points - 1)%nat → type p = To)
    ∧ ((0 < i < length points - 1)%nat → type p = Via)
    ∧ color p = getMarkerColor (type p).

(** The transitions of the waypoint list that the role invariant is
    stated for. *)
Definition isAddOrRemove (action : Action) : bool :=
  match action with
  | AddPoint _ _ _ | RemovePoint _ => true
  | _ => false
  end.

(** The [map] of the [AddPoint] and [RemovePoint] branches, for a given
    second argument of [getPointType]. *)
Definition retype (numberOfPoints : Z) (points : list QueryPoint)
    : list QueryPoint :=
  imap (λ i point,
          withType point (getPointType (Z.of_nat i) numberOfPoints)) points.

(** The ids of the waypoints are pairwise distinct and below [nextId]. *)
Definition idsFresh (state : QueryStoreState) : Prop :=
  NoDup (id <$> queryPoints state)
  ∧ Forall (λ i, i < nextId state) (id <$> queryPoints state).

Variable numberToString : float → string.

(** Every [RemovePoint] of the sequence names a waypoint of the state it is
    applied to. *)
Fixpoint removalsPresent (state : QueryStoreState) (actions : list Action)
    : Prop :=
  match actions with
  | [] => True
  | action :: actions =>
      match action with
      | RemovePoint p => id p ∈ id <$> queryPoints state
      | _ => True
      end
      ∧ removalsPresent (receive numberToString state action).1 actions
  end.

End QueryStoreVocabulary.

Section QueryStoreSessions.

Import QueryStore.

(** A stand-in for [Number.prototype.toString]; the sessions below never
    depend on the text it produces. *)
Definition constantToString (x : float) : string := "0".

Definition carProfile : Api.RoutingVehicle :=
  {| Api.vehicle_key := "car"; Api.version := "1"; Api.import_date := "";
     Api.features := {| Api.feature_elevation := false |} |}.

Definition bikeProfile : Api.RoutingVehicle :=
  {| Api.vehicle_key := "bike"; Api.version := "1"; Api.import_date := "";
     Api.features := {| Api.feature_elevation := true |} |}.

Definition footProfile : Api.RoutingVehicle :=
  {| Api.vehicle_key := "foot"; Api.version := "1"; Api.import_date := "";
     Api.features := {| Api.feature_elevation := true |} |}.

Definition infoOf (vehicles : list Api.RoutingVehicle) : Api.ApiInfo :=
  {| Api.info_import_date := ""; Api.info_version := "1";
     Api.bbox := (0, 0, 0, 0)%float; Api.vehicles := vehicles |}.

(** The two initial waypoints once geocoded. *)
Definition startPoint : QueryPoint :=
  {| coordinate := {| lat := 52.5; lng := 13.4 |}; queryText := "Berlin";
     isInitialized := true; color := "#417900"; id := 0; type := From;
     point := None |}.

Definition endPoint : QueryPoint :=
  {| coordinate := {| lat := 48.1; lng := 11.6 |}; queryText := "Munich";
     isInitialized := true; color := "#F97777"; id := 1; type := To;
     point := None |}.

(** The state after the start has been set, and after both have been. *)
Definition startSet : QueryStoreState :=
  (session constantToString getInitialState [SetPoint startPoint]).1.

Definition bothSet : QueryStoreState :=
  (session constantToString getInitialState
     [SetPoint startPoint; SetPoint endPoint]).1.

(** The same via is removed twice, as when its delete button is hit
    twice. *)
Definition doubleRemoval : list Action :=
  [ AddPoint 1 {| lat := 50; lng := 12 |} false;
    RemovePoint (getEmptyPoint 2 Via);
    RemovePoint (getEmptyPoint 2 Via) ].

End QueryStoreSessions.


(** ** Decoding a response, [src/routing/Api.ts] *)

Module ApiResult.

Import Api.

(** A path as it arrives and as it is while it is decoded: [points] and
    [snapped_waypoints] are of type [string | LineString], and nothing ties
    the alternative to the flag [points_encoded]. *)
Record RawPath := {
  raw_distance : float;
  raw_time : float;
  raw_points_encoded : bool;
  raw_instructions : option (list Instruction);
  raw_points : string + LineString;
  raw_snapped_waypoints : string + LineString;
}.

Record RawResult := {
  raw_copyright : list string;
  raw_took : float;
  raw_paths : list RawPath;
}.

(** [decodePath(value as string, false)] on the value there is: a
    [LineString] object has no [length], [index < len] is false at once and
    the array stays empty. *)
Definition decodePathValue (value : string + LineString) : list (list float) :=
  match value with
  | inl encoded => decodePath encoded false
  | inr _ => []
  end.

Definition decodePoints (path : RawPath) : string + LineString :=
  if raw_points_encoded path
  then inr {| type := "LineString";
              coordinates := decodePathValue (raw_points path) |}
  else raw_points path.

Definition decodeWaypoints (path : RawPath) : string + LineString :=
  if raw_points_encoded path
  then inr {| type := "LineString";
              coordinates := decodePathValue (raw_snapped_waypoints path) |}
  else raw_snapped_waypoints path.

(** The path with a [LineString] for its points, as [setPointsOnInstructions]
    expects it. *)
Definition asPath (path : RawPath) (points : LineString) : Path :=
  {| path_distance := raw_distance path;
     path_time := raw_time path;
     path_points_encoded := raw_points_encoded path;
     instructions := raw_instructions path;
     path_points := points;
     snapped_waypoints :=
       match raw_snapped_waypoints path with
       | inr waypoints => waypoints
       | inl _ => {| type := ""; coordinates := [] |}
       end |}.

(** [setPointsOnInstructions] on the value there is.  When the points are
    still a string, [path.points.coordinates] is undefined and the first
    instruction mapped throws a [TypeError] (the outer [None]); without
    instructions to map nothing is read. *)
Definition setPointsOnInstructionsValue (path : RawPath)
    : option (option (list Instruction)) :=
  match raw_points path with
  | inr points => Some (setPointsOnInstructions (asPath path points))
  | inl _ =>
      match raw_instructions path with
      | Some (_ :: _) => None
      | Some [] => Some (Some [])
      | None => Some None
      end
  end.

(** The two [map]s of [decodeResult]; [None] when the second one throws. *)
Definition decodeResult (result : RawResult) : option (list RawPath) :=
  let decoded :=
    (λ path,
       {| raw_distance := raw_distance path;
          raw_time := raw_time path;
          raw_points_encoded := raw_points_encoded path;
          raw_instructions := raw_instructions path;
          raw_points := decodePoints path;
          raw_snapped_waypoints := decodeWaypoints path |})
      <$> raw_paths result in
  mapM (λ path,
          instructions ← setPointsOnInstructionsValue path;
          Some {| raw_distance := raw_distance path;
                  raw_time := raw_time path;
                  raw_points_encoded := raw_points_encoded path;
                  raw_points := raw_points path;
                  raw_snapped_waypoints := raw_snapped_waypoints path;
                  raw_instructions := instructions |}) decoded.

End ApiResult.

(** ** Reading the service information, [src/routing/Api.ts] *)

Module ApiInfoResponse.

(** A parsed JSON value; the members of an object are in the order in
    which [for ... in] visits them. *)
Unset Elimination Schemes.
Inductive Json :=
| JNull
| JBool (b : bool)
| JNumber (x : float)
| JString (s : string)
| JArray (items : list Json)
| JObject (members : list (string * Json)).
Set Elimination Schemes.

(** What reading a property gives: nothing, a parsed value, or a member of
    a prototype. *)
Inductive JsValue :=
| Undefined
| Value (value : Json)
| Builtin (name : string).

Record VehicleValue := {
  vehicle_features : JsValue;
  vehicle_version : JsValue;
  vehicle_import_date : JsValue;
  vehicle_key : string;
}.

(** The result with the [console.log] lines written on the way.  The
    source declares it an [ApiInfo]; nothing checks that the values have the
    declared types. *)
Record ApiInfoValue := {
  info_vehicles : list VehicleValue;
  info_bbox : Json;
  info_version : Json;
  info_import_date : Json;
  info_log : list string;
}.

(** The own member of an object with a given name. *)
Definition member (name : string) (members : list (string * Json))
    : option Json :=
  snd <$> find (λ m, String.eqb m.1 name) members.

(** The index an array answers to under a property name. *)
Definition arrayIndex (name : string) (items : list Json) : option nat :=
  find (λ i, String.eqb name (NilZero.string_of_uint (Nat.to_uint i)))
    (seq 0 (length items)).

Section Runtime.

(** The names an object or array answers to through its prototype chain
    ([toString], [constructor], ...), as the engine has them. *)
Variable inherited : Json → string → bool.

(** [name in value]; a [TypeError] ([None]) when the value is undefined,
    null or primitive. *)
Definition hasProperty (value : option Json) (name : string) : option bool :=
  match value with
  | Some (JObject members) =>
      Some (bool_decide (is_Some (member name members))
            || inherited (JObject members) name)
  | Some (JArray items) =>
      Some (bool_decide (is_Some (arrayIndex name items))
            || String.eqb name "length"
            || inherited (JArray items) name)
  | _ => None
  end.

(** [value[name]] for a value that passed the test above. *)
Definition getProperty (value : option Json) (name : string) : JsValue :=
  match value with
  | Some (JObject members) =>
      match member name members with
      | Some v => Value v
      | None =>
          if inherited (JObject members) name then Builtin name else Undefined
      end
  | Some (JArray items) =>
      match arrayIndex name items with
      | Some i => from_option Value Undefined (items !! i)
      | None =>
          if String.eqb name "length"
          then Value (JNumber (Js.numberOfZ (Z.of_nat (length items))))
          else if inherited (JArray items) name then Builtin name
          else Undefined
      end
  | _ => Undefined
  end.

(** [value.version] and [value.import_date] on a member of the response:
    a [TypeError] on null, the own member of an object, and undefined on
    every other value (no prototype has a member of these names). *)
Definition readField (value : Json) (name : string) : option JsValue :=
  match value with
  | JNull => None
  | JObject members => Some (from_option Value Undefined (member name members))
  | _ => Some Undefined
  end.

(** One round of the [for ... in] loop. *)
Definition visit (features : option Json) (info : ApiInfoValue)
    (property : string) (value : Json) : option ApiInfoValue :=
  found ← hasProperty features property;
  if found : bool then
    version ← readField value "version";
    import_date ← readField value "import_date";
    Some {| info_vehicles :=
              info_vehicles info
              ++ [ {| vehicle_features := getProperty features property;
                      vehicle_version := version;
                      vehicle_import_date := import_date;
                      vehicle_key := property |} ];
            info_bbox := info_bbox info;
            info_version := info_version info;
            info_import_date := info_import_date info;
            info_log := info_log info |}
  else if String.eqb property "bbox" then
    Some {| info_vehicles := info_vehicles info;
            info_bbox := value;
            info_version := info_version info;
            info_import_date := info_import_date info;
            info_log := info_log info |}
  else if String.eqb property "version" then
    Some {| info_vehicles := info_vehicles info;
            info_bbox := info_bbox info;
            info_version := value;
            info_import_date := info_import_date info;
            info_log := info_log info |}
  else if String.eqb property "import_date" then
    Some {| info_vehicles := info_vehicles info;
            info_bbox := info_bbox info;
            info_version := info_version info;
            info_import_date := value;
            info_log := info_log info |}
  else if negb (String.eqb property "features") then
    Some {| info_vehicles := info_vehicles info;
            info_bbox := info_bbox info;
            info_version := info_version info;
            info_import_date := info_import_date info;
            info_log :=
              info_log info ++ ["unexpected property name: " +:+ property] |}
  else Some info.

Fixpoint visitAll (features : option Json) (info : ApiInfoValue)
    (members : list (string * Json)) : option ApiInfoValue :=
  match members with
  | [] => Some info
  | (property, value) :: members =>
      info ← visit features info property value;
      visitAll features info members
  end.

(** [convertToApiInfo] on a response that is an object, given by its
    members; [None] when it throws. *)
Definition convertToApiInfo (response : list (string * Json))
    : option ApiInfoValue :=
  let start :=
    {| info_vehicles := [];
       info_bbox := JArray [JNumber 0; JNumber 0; JNumber 0; JNumber 0];
       info_version := JString "";
       info_import_date := JString "";
       info_log := [] |} in
  let features := member "features" response in
  visitAll features start response.

End Runtime.

End ApiInfoResponse.

(** ** Further vocabulary *)

Section FurtherVocabulary.

Import QueryStore.

(** The characters of one number of the encoding, from its base-32 digits,
    least significant first: every digit but the last carries the
    continuation bit [0x20], and 63 is added to each. *)
Definition chunkChars (digits : list Z) (last : Z) : list Z :=
  ((λ d, d + 0x20 + 63) <$> digits) ++ [last + 63].

Definition digitsValue (digits : list Z) : Z :=
  foldr (λ d value, d + 32 * value) 0 digits.

(** The zig-zag code of a signed number: [2 d] for [d >= 0], [-2 d - 1]
    below. *)
Definition zigzag (d : Z) : Z := if d <? 0 then - 2 * d - 1 else 2 * d.

(** What the store keeps of a waypoint when it recomputes roles and colors. *)
Definition waypointData (q : QueryPoint)
    : Z * Coordinate * string * bool * option Coordinate :=
  (id q, coordinate q, queryText q, isInitialized q, point q).

(** The index at which [splice] inserts, for a list of [n] elements. *)
Definition insertionIndex (n : nat) (atIndex : Z) : nat :=
  if atIndex <? 0 then Z.to_nat (Z.of_nat n + atIndex)
  else Nat.min (Z.to_nat atIndex) n.

(** The vehicle [convertToApiInfo] builds for a member of the response
    that is named in the features. *)
Definition vehicleOf (features : list (string * ApiInfoResponse.Json))
    (m : string * ApiInfoResponse.Json) : ApiInfoResponse.VehicleValue :=
  let field name :=
    match m.2 with
    | ApiInfoResponse.JObject members =>
        from_option ApiInfoResponse.Value ApiInfoResponse.Undefined
          (ApiInfoResponse.member name members)
    | _ => ApiInfoResponse.Undefined
    end in
  {| ApiInfoResponse.vehicle_features :=
       from_option ApiInfoResponse.Value ApiInfoResponse.Undefined
         (ApiInfoResponse.member m.1 features);
     ApiInfoResponse.vehicle_version := field "version";
     ApiInfoResponse.vehicle_import_date := field "import_date";
     ApiInfoResponse.vehicle_key := m.1 |}.

(** A member of the response that is neither named in the features nor one
    of the four names the loop knows. *)
Definition unexpectedName (features : list (string * ApiInfoResponse.Json))
    (name : string) : Prop :=
  ¬ is_Some (ApiInfoResponse.member name features)
  ∧ name ∉ ["bbox"; "version"; "import_date"; "features"].

(** The value a scalar of the result ends with: the default when the name
    is a name of the features or no member has it, the member otherwise. *)
Definition scalarOf (features response : list (string * ApiInfoResponse.Json))
    (name : string) (initial : ApiInfoResponse.Json) : ApiInfoResponse.Json :=
  if decide (is_Some (ApiInfoResponse.member name features)) then initial
  else default initial (ApiInfoResponse.member name response).

(** An information reply with two profiles, one of them without an entry
    of its own, and a member the loop does not know. *)
Definition infoReply : list (string * ApiInfoResponse.Json) :=
  [ ("bbox", ApiInfoResponse.JArray
               [ ApiInfoResponse.JNumber 5; ApiInfoResponse.JNumber 47;
                 ApiInfoResponse.JNumber 15; ApiInfoResponse.JNumber 55 ]);
    ("car", ApiInfoResponse.JObject
              [ ("version", ApiInfoResponse.JString "1_car");
                ("import_date", ApiInfoResponse.JString "2020-05-01") ]);
    ("features",
       ApiInfoResponse.JObject
         [ ("car", ApiInfoResponse.JObject
                     [("elevation", ApiInfoResponse.JBool false)]);
           ("bike", ApiInfoResponse.JObject
                      [("elevation", ApiInfoResponse.JBool true)]) ]);
    ("hints", ApiInfoResponse.JNull);
    ("version", ApiInfoResponse.JString "1.0") ].

(** An engine in which no name of interest is answered by a prototype. *)
Definition nothingInherited (value : ApiInfoResponse.Json) (name : string)
    : bool := false.


(** The number of [AddPoint] actions of a sequence. *)
Definition countAddPoints (actions : list Action) : nat :=
  length (filter (λ action, isAddPoint action = true) actions).



(** The state with both waypoints set after the service information has
    arrived without a vehicle. *)
Definition lostProfile : QueryStoreState :=
  (session constantToString getInitialState
     [SetPoint startPoint; SetPoint endPoint; InfoReceived (infoOf [])]).1.

(** The state with its profile replaced by a vehicle. *)
Definition withProfile (state : QueryStoreState) (v : Api.RoutingVehicle)
    : QueryStoreState :=
  {| queryPoints := queryPoints state;
     nextId := nextId state;
     routingVehicle := Some v |}.

(** A response with one encoded path, the reference string, and one
    instruction over its first two points. *)
Definition encodedResponse : ApiResult.RawResult :=
  {| ApiResult.raw_copyright := ["GraphHopper"];
     ApiResult.raw_took := 1;
     ApiResult.raw_paths :=
       [ {| ApiResult.raw_distance := 0;
            ApiResult.raw_time := 0;
            ApiResult.raw_points_encoded := true;
            ApiResult.raw_instructions :=
              Some [ {| Api.distance := 0; Api.interval := (0, 1);
                        Api.instr_points := []; Api.sign := 0;
                        Api.text := "Continue"; Api.time := 0 |} ];
            ApiResult.raw_points := inl "_p~iF~ps|U_ulLnnqC_mqNvxq`@";
            ApiResult.raw_snapped_waypoints := inl "_p~iF~ps|U" |} ] |}.

End FurtherVocabulary.

(** ** Properties of the routing client *)

Section ApiProperties.

Import Api.

(** *** Termination of the decoding loop *)

Lemma readChunks_length (rest : list Z) (shift result : Z) :
  (length (readChunks rest shift result).2 ≤ length rest)%nat.
Proof.
  revert shift result.
  induction rest as [|c rest IH]; intros shift result; simpl; [lia|].
  destruct (0x20 <=? c - 63); simpl; [|lia].
  specialize (IH (shift + 5) (Js.or32 result (Js.shl32 (Js.and32 (c - 63) 31) shift))).
  lia.
Qed.

Lemma readChunks_consumes (c : Z) (rest : list Z) (shift result : Z) :
  (length (readChunks (c :: rest) shift result).2 < length (c :: rest))%nat.
Proof.
  simpl. destruct (0x20 <=? c - 63); simpl; [|lia].
  pose proof (readChunks_length rest (shift + 5)
    (Js.or32 result (Js.shl32 (Js.and32 (c - 63) 31) shift))).
  lia.
Qed.

(** Any fuel of at least the number of remaining characters gives the
    same array: the loop of [decodePath] ends on every input. *)
Lemma decodeLoop_fuel (fuel fuel' : nat) (is3D : bool) (rest : list Z)
    (lat lng ele : float) (array : list (list float)) :
  (length rest ≤ fuel)%nat → (length rest ≤ fuel')%nat →
  decodeLoop fuel is3D rest lat lng ele array
  = decodeLoop fuel' is3D rest lat lng ele array.
Proof.
  revert fuel' rest lat lng ele array.
  induction fuel as [|fuel IH]; intros fuel' rest lat lng ele array Hf Hf'.
  - destruct rest; [|simpl in Hf; lia]. by destruct fuel'.
  - destruct rest as [|c rest]; [by destruct fuel'|].
    destruct fuel' as [|fuel']; [simpl in Hf'; lia|].
    cbn [decodeLoop].
    pose proof (readChunks_consumes c rest 0 0) as H1.
    destruct (readChunks (c :: rest) 0 0) as [r1 rest1].
    pose proof (readChunks_length rest1 0 0) as H2.
    destruct (readChunks rest1 0 0) as [r2 rest2].
    pose proof (readChunks_length rest2 0 0) as H3.
    simpl in *.
    destruct is3D.
    + destruct (readChunks rest2 0 0) as [r3 rest3]. simpl in *.
      apply IH; lia.
    + apply IH; lia.
Qed.

(** Every point of the result has two entries in the 2-D variant and three
    in the 3-D variant. *)
Lemma decodeLoop_arity (fuel : nat) (is3D : bool) (rest : list Z)
    (lat lng ele : float) (array : list (list float)) :
  Forall (λ p, length p = if is3D then 3%nat else 2%nat) array →
  Forall (λ p, length p = if is3D then 3%nat else 2%nat)
    (decodeLoop fuel is3D rest lat lng ele array).
Proof.
  revert rest lat lng ele array.
  induction fuel as [|fuel IH]; intros rest lat lng ele array Harray.
  - by destruct rest.
  - destruct rest as [|c rest]; [done|]. cbn [decodeLoop].
    destruct (readChunks (c :: rest) 0 0) as [r1 rest1].
    destruct (readChunks rest1 0 0) as [r2 rest2].
    destruct is3D.
    + destruct (readChunks rest2 0 0) as [r3 rest3].
      apply IH, Forall_app. split; [done|]. by repeat constructor.
    + apply IH, Forall_app. split; [done|]. by repeat constructor.
Qed.

(** Every point [decodePath] emits has two entries in the 2-D variant and
    three in the 3-D variant. *)
Lemma decodePath_arity (encoded : string) (is3D : bool) :
  Forall (λ p, length p = if is3D then 3%nat else 2%nat)
    (decodePath encoded is3D).
Proof. apply decodeLoop_arity. constructor. Qed.

(** *** Slicing *)

Lemma slice_lookup {A} (l : list A) (s e : Z) (j : nat) :
  0 ≤ s → 0 ≤ e →
  Js.slice l s (e + 1) !! j
  = if decide (s + Z.of_nat j ≤ e) then l !! (Z.to_nat s + j)%nat else None.
Proof.
  intros Hs He. unfold Js.slice, Js.relativeIndex.
  destruct (Z.ltb_spec s 0); [lia|].
  destruct (Z.ltb_spec (e + 1) 0); [lia|].
  set (len := Z.of_nat (length l)).
  destruct (decide (j < Z.to_nat (Z.min (e + 1) len - Z.min s len))%nat) as [Hj|Hj].
  - rewrite lookup_take_lt by done. rewrite lookup_drop.
    assert (Z.min s len = s) as -> by lia.
    rewrite decide_True by lia. done.
  - rewrite lookup_take_ge by lia.
    case_decide; [|done].
    symmetry. apply lookup_ge_None. subst len. lia.
Qed.

Lemma slice_length {A} (l : list A) (s e : Z) :
  0 ≤ s → s ≤ e → e < Z.of_nat (length l) →
  Z.of_nat (length (Js.slice l s (e + 1))) = e - s + 1.
Proof.
  intros Hs He Hl. unfold Js.slice, Js.relativeIndex.
  destruct (Z.ltb_spec s 0); [lia|].
  destruct (Z.ltb_spec (e + 1) 0); [lia|].
  rewrite length_take, length_drop. lia.
Qed.

(** *** Decoding the reference vector *)

(** C3. [decodePath], 2-D variant, on the reference string: three points,
    each [[lng * 1e-5, lat * 1e-5]] for the running sums of the decoded
    deltas (lat 3850000, +220000, +255200; lng -12020000, -75000,
    -550300), and each coordinate within 1e-5 of the reference values
    [[-120.2, 38.5], [-120.95, 40.7], [-126.453, 43.252]], compared as
    exact rationals. *)
Theorem C3_decodePath_reference_vector :
  let decoded := decodePath "_p~iF~ps|U_ulLnnqC_mqNvxq`@" false in
  let emit (lat lng : Z) : list float :=
    [(Js.numberOfZ lng * 1e-5)%float; (Js.numberOfZ lat * 1e-5)%float] in
  decoded
  = [ emit 3850000 (-12020000);
      emit (3850000 + 220000) (-12020000 + -75000);
      emit (3850000 + 220000 + 255200) (-12020000 + -75000 + -550300) ]
  ∧ Forall2 (Forall2 (λ x q, Js.within (1 # 100000) x q = true)) decoded
      [ [-1202 # 10; 385 # 10];
        [-12095 # 100; 407 # 10];
        [-126453 # 1000; 43252 # 1000] ]%Q.
Proof.
  split.
  - vm_compute. reflexivity.
  - vm_compute. repeat constructor.
Qed.

(** *** Instruction geometry *)

(** C4. Every instruction of a path gets as its points the slice
    [slice(startIdx, endIdx + 1)] of the coordinates of the path, and keeps
    its other fields.  For indices that are not negative these are the
    coordinates at the positions from [startIdx] through [endIdx], both
    included (positions beyond the end of the path give nothing); for
    [startIdx <= endIdx] inside the path they are [endIdx - startIdx + 1]
    points, so 3 points for the interval [[0, 2]] over a path of 5. *)
Theorem C4_instruction_points_inclusive_slice
    (path : Path) (instrs : list Instruction) :
  instructions path = Some instrs →
  ∃ instrs',
    setPointsOnInstructions path = Some instrs' ∧
    Forall2 (λ instr instr',
      let coords := coordinates (path_points path) in
      let startIdx := (interval instr).1 in
      let endIdx := (interval instr).2 in
      interval instr' = interval instr ∧
      (distance instr', sign instr', text instr', time instr')
      = (distance instr, sign instr, text instr, time instr) ∧
      instr_points instr' = Js.slice coords startIdx (endIdx + 1) ∧
      (0 ≤ startIdx → 0 ≤ endIdx →
         ∀ j : nat,
           instr_points instr' !! j
           = if decide (startIdx + Z.of_nat j ≤ endIdx)
             then coords !! (Z.to_nat startIdx + j)%nat else None) ∧
      (0 ≤ startIdx → startIdx ≤ endIdx → endIdx < Z.of_nat (length coords) →
         Z.of_nat (length (instr_points instr')) = endIdx - startIdx + 1) ∧
      (interval instr = (0, 2) → length coords = 5%nat →
         length (instr_points instr') = 3%nat)) instrs instrs'.
Proof.
  intros Hinstrs. unfold setPointsOnInstructions. rewrite Hinstrs.
  eexists; split; [reflexivity|].
  apply Forall2_fmap_r, Forall_Forall2_diag, Forall_forall.
  intros instr _. cbn. repeat split.
  - intros Hs He j. by apply slice_lookup.
  - intros Hs He Hl. by apply slice_length.
  - intros Hi Hl. rewrite Hi. cbn.
    pose proof (slice_length (coordinates (path_points path)) 0 2) as H.
    cbn in H. lia.
Qed.

Lemma C4_fivePointPath_witness :
  instructions fivePointPath
  = Some [ {| distance := 0; interval := (0, 2); instr_points := [];
              sign := 0; text := "Continue"; time := 0 |} ]
  ∧ ∃ instrs',
      setPointsOnInstructions fivePointPath = Some instrs' ∧
      instr_points <$> instrs' = [[[0; 0]; [1; 0]; [2; 0]]%float].
Proof.
  split; [reflexivity|].
  destruct (C4_instruction_points_inclusive_slice fivePointPath _ eq_refl)
    as (instrs' & Hset & _).
  exists instrs'. split; [exact Hset|].
  cbv in Hset. injection Hset as <-. reflexivity.
Defined.

(** *** The request body *)

(** C7, as stated, fails: a caller's vehicle that is present but empty is
    not passed on; the request names ["car"]. *)
Lemma C7_empty_vehicle_counterexample :
  ¬ (∀ args : RoutingArgs,
       req_vehicle (createRequest args)
       = match vehicle args with Some v => v | None => "car" end).
Proof.
  intros H. specialize (H initialProfileArgs). discriminate H.
Qed.

(** C7, amended. The request holds the caller's points, the caller's
    vehicle when it is present and not the empty string and ["car"]
    otherwise, and the fixed defaults; nothing else of the arguments has
    an influence. *)
Theorem C7_createRequest_defaults (args : RoutingArgs) :
  req_points (createRequest args) = points args
  ∧ req_vehicle (createRequest args)
    = match vehicle args with
      | Some v => if decide (v = "") then "car" else v
      | None => "car"
      end
  ∧ locale (createRequest args) = "en"
  ∧ debug (createRequest args) = false
  ∧ points_encoded (createRequest args) = true
  ∧ req_instructions (createRequest args) = true
  ∧ elevation (createRequest args) = false
  ∧ optimize (createRequest args) = "false"
  ∧ alternative_route_max_paths (createRequest args) = Some 2
  ∧ ch_disable (createRequest args) = Some true
  ∧ algorithm (createRequest args) = Some alternative_route
  ∧ ∀ args' : RoutingArgs,
      points args' = points args → vehicle args' = vehicle args →
      createRequest args' = createRequest args.
Proof.
  repeat split.
  - cbn. unfold orString. destruct (vehicle args) as [v|]; [|done].
    case_decide as Hv.
    + subst v. done.
    + destruct (String.eqb_spec v ""); done.
  - intros args' Hp Hv. unfold createRequest. by rewrite Hp, Hv.
Qed.

End ApiProperties.


(** ** Properties of the query store *)

Section QueryStoreProperties.

Import QueryStore.

Variable numberToString : float → string.

(** *** The routing guard *)

Lemma routeReady_guard (state : QueryStoreState) :
  (1 <? Z.of_nat (length (queryPoints state)))
    && forallb isInitialized (queryPoints state) = true
  ↔ routeReady state.
Proof.
  unfold routeReady.
  rewrite andb_true_iff, Z.ltb_lt, forallb_forall, Forall_forall.
  setoid_rewrite list_elem_of_In. intuition lia.
Qed.

Lemma routeIfAllPointsSet_calls (state : QueryStoreState) (v : Api.RoutingVehicle) :
  routingVehicle state = Some v →
  ∃ calls,
    routeIfAllPointsSet state = Some calls
    ∧ (calls ≠ [] ↔ routeReady state)
    ∧ (calls ≠ [] →
       ∃ args, calls = [args]
         ∧ Api.points args
           = (λ p, (lng (coordinate p), lat (coordinate p))) <$> queryPoints state
         ∧ Api.vehicle args = Some (Api.vehicle_key v)).
Proof.
  intros Hv. unfold routeIfAllPointsSet. rewrite Hv.
  pose proof (routeReady_guard state) as Hg.
  destruct ((1 <? Z.of_nat (length (queryPoints state)))
            && forallb isInitialized (queryPoints state)); cbn.
  - eexists; split; [reflexivity|]. split; [|eauto].
    split; [intros _; by apply Hg | done].
  - exists []. split; [done|]. split; [|done].
    split; [done|]. intros Hr. apply Hg in Hr. done.
Qed.

Lemma routeIfAllPointsSet_only_if_ready (state : QueryStoreState)
    (calls : list Api.RoutingArgs) :
  routeIfAllPointsSet state = Some calls → calls ≠ [] → routeReady state.
Proof.
  unfold routeIfAllPointsSet. intros Hc Hne.
  pose proof (routeReady_guard state) as Hg.
  destruct ((1 <? Z.of_nat (length (queryPoints state)))
            && forallb isInitialized (queryPoints state)).
  - by apply Hg.
  - by simplify_eq.
Qed.

(** C1, amended. From a state whose profile is defined every transition
    completes, and it calls [route] if and only if it is a [SetPoint],
    [AddPoint], [RemovePoint] or [SetVehicle] transition and the resulting
    state has at least two waypoints, all initialized; the call is then a
    single one, with the coordinates of the resulting state in order, as
    [[lng, lat]], and the key of its profile.  [InvalidatePoint],
    [ClearPoints], [InfoReceived] and the actions the store does not handle
    never call [route]. *)
Theorem C1_route_requested_iff_ready
    (state : QueryStoreState) (action : Action) :
  is_Some (routingVehicle state) →
  ∃ state' calls,
    reduce numberToString state action = Some (state', calls)
    ∧ (calls ≠ [] ↔ triggersRouting action = true ∧ routeReady state')
    ∧ (calls ≠ [] →
       ∃ args v, calls = [args]
         ∧ routingVehicle state' = Some v
         ∧ Api.points args
           = (λ p, (lng (coordinate p), lat (coordinate p))) <$> queryPoints state'
         ∧ Api.vehicle args = Some (Api.vehicle_key v)).
Proof.
  intros [v Hv].
  assert (∀ state' v', routingVehicle state' = Some v' →
    ∃ st calls,
      (calls ← routeIfAllPointsSet state'; Some (state', calls)) = Some (st, calls)
      ∧ st = state'
      ∧ (calls ≠ [] ↔ true = true ∧ routeReady state')
      ∧ (calls ≠ [] →
         ∃ args v, calls = [args]
           ∧ routingVehicle state' = Some v
           ∧ Api.points args
             = (λ p, (lng (coordinate p), lat (coordinate p))) <$> queryPoints state'
           ∧ Api.vehicle args = Some (Api.vehicle_key v))) as Hroute.
  { intros state' v' Hv'.
    destruct (routeIfAllPointsSet_calls state' v' Hv') as (calls & -> & Hiff & Hargs).
    exists state', calls. cbn. split; [done|]. split; [done|].
    split; [tauto|].
    intros Hne. destruct (Hargs Hne) as (args & ? & ? & ?). eauto 10. }
  assert (∀ st : QueryStoreState,
    ∃ state' calls, Some (st, @nil Api.RoutingArgs) = Some (state', calls)
      ∧ (calls ≠ [] ↔ false = true ∧ routeReady state')
      ∧ (calls ≠ [] →
         ∃ args v, calls = [args]
           ∧ routingVehicle state' = Some v
           ∧ Api.points args
             = (λ p, (lng (coordinate p), lat (coordinate p))) <$> queryPoints state'
           ∧ Api.vehicle args = Some (Api.vehicle_key v))) as Hquiet.
  { intros st. exists st, []. split; [done|]. split; [|done].
    split; [done|]. by intros [? _]. }
  destruct action; cbn [reduce triggersRouting]; try apply Hquiet.
  all: edestruct Hroute as (st & calls & -> & -> & ?);
    [first [exact Hv | reflexivity] | eauto].
Qed.

Lemma routeIfAllPointsSet_undefined_profile (state : QueryStoreState) :
  routingVehicle state = None → routeReady state →
  routeIfAllPointsSet state = None.
Proof.
  intros Hv Hr. unfold routeIfAllPointsSet.
  apply routeReady_guard in Hr. by rewrite Hr, Hv.
Qed.

(** *** Clearing the points *)

(** C5. [ClearPoints] completes without a call of [route]; every waypoint
    of the result has an empty query text and is not initialized, and keeps
    its id, role, color and coordinate (the zero coordinate is written to the
    property [point] instead); [nextId] and the profile are unchanged. *)
Theorem C5_ClearPoints_keeps_coordinate (state : QueryStoreState) :
  ∃ state',
    reduce numberToString state ClearPoints = Some (state', [])
    ∧ nextId state' = nextId state
    ∧ routingVehicle state' = routingVehicle state
    ∧ Forall2 (λ p p',
        queryText p' = "" ∧ isInitialized p' = false
        ∧ id p' = id p ∧ type p' = type p ∧ color p' = color p
        ∧ coordinate p' = coordinate p
        ∧ point p' = Some {| lat := 0; lng := 0 |})
        (queryPoints state) (queryPoints state').
Proof.
  eexists. split; [reflexivity|]. cbn. split; [done|]. split; [done|].
  apply Forall2_fmap_r, Forall_Forall2_diag, Forall_forall.
  intros p _. cbn. done.
Qed.

(** Clearing twice is clearing once. *)
Lemma ClearPoints_idempotent (state : QueryStoreState) :
  (receive numberToString (receive numberToString state ClearPoints).1 ClearPoints).1
  = (receive numberToString state ClearPoints).1.
Proof.
  unfold receive. cbn. f_equal.
  rewrite <- list_fmap_compose. by apply list_fmap_ext.
Qed.

(** *** Receiving the service information *)

Lemma find_first {A} (f : A → bool) (l : list A) :
  match find f l with
  | Some x =>
      ∃ i : nat, l !! i = Some x ∧ f x = true
        ∧ ∀ (j : nat) y, (j < i)%nat → l !! j = Some y → f y = false
  | None => ∀ y, y ∈ l → f y = false
  end.
Proof.
  induction l as [|a l IH]; cbn.
  - intros y Hy. by apply elem_of_nil in Hy.
  - destruct (f a) eqn:Hfa.
    + exists 0%nat. repeat split; [done|]. intros j y Hj. lia.
    + destruct (find f l) as [x|].
      * destruct IH as (i & Hi & Hx & Hbefore).
        exists (S i). repeat split; [done..|].
        intros [|j] y Hj Hy; cbn in Hy; [by simplify_eq|].
        apply (Hbefore j); [lia|done].
      * intros y [->|Hy]%elem_of_cons; [done|by apply IH].
Qed.

Lemma find_car_none (vehicles : list Api.RoutingVehicle) :
  (∀ v, v ∈ vehicles → Api.vehicle_key v ≠ "car") →
  find (λ vehicle, String.eqb (Api.vehicle_key vehicle) "car") vehicles = None.
Proof.
  intros Hno.
  pose proof (find_first (λ vehicle, String.eqb (Api.vehicle_key vehicle) "car")
                vehicles) as Hf.
  destruct (find _ vehicles) as [car|]; [|done].
  destruct Hf as (i & Hi & Hcar & _).
  apply String.eqb_eq in Hcar.
  destruct (Hno car); [|done]. by eapply list_elem_of_lookup_2.
Qed.

(** C8. [InfoReceived] completes without a call of [route] and changes
    neither the waypoints nor [nextId]; the profile it stores is the first
    vehicle of the list whose key is ["car"] when the list has one, and the
    first vehicle of the list ([vehicles[0]]) when it has none. *)
Theorem C8_InfoReceived_prefers_car
    (state : QueryStoreState) (result : Api.ApiInfo) :
  ∃ state',
    reduce numberToString state (InfoReceived result) = Some (state', [])
    ∧ queryPoints state' = queryPoints state
    ∧ nextId state' = nextId state
    ∧ ((∃ v, v ∈ Api.vehicles result ∧ Api.vehicle_key v = "car") →
       ∃ (i : nat) car,
         routingVehicle state' = Some car
         ∧ Api.vehicles result !! i = Some car
         ∧ Api.vehicle_key car = "car"
         ∧ ∀ (j : nat) v, (j < i)%nat → Api.vehicles result !! j = Some v →
             Api.vehicle_key v ≠ "car")
    ∧ ((∀ v, v ∈ Api.vehicles result → Api.vehicle_key v ≠ "car") →
       routingVehicle state' = head (Api.vehicles result)).
Proof.
  eexists. split; [reflexivity|]. cbn. split; [done|]. split; [done|].
  pose proof (find_first (λ vehicle, String.eqb (Api.vehicle_key vehicle) "car")
                (Api.vehicles result)) as Hf.
  split.
  - intros (v & Hv & Hkey).
    destruct (find _ (Api.vehicles result)) as [car|].
    + destruct Hf as (i & Hi & Hcar & Hbefore).
      exists i, car. apply String.eqb_eq in Hcar. repeat split; [done..|].
      intros j w Hj Hw Hk. specialize (Hbefore j w Hj Hw).
      apply String.eqb_neq in Hbefore. done.
    + specialize (Hf v Hv). apply String.eqb_neq in Hf. done.
  - intros Hno. rewrite (find_car_none _ Hno). by rewrite head_lookup.
Qed.

(** C10. When no vehicle of the list has the key ["car"], [InfoReceived]
    stores [vehicles[0]]; that is a vehicle exactly when the list is not
    empty, and undefined for the empty list. *)
Theorem C10_InfoReceived_first_vehicle_needs_nonempty
    (state : QueryStoreState) (result : Api.ApiInfo) :
  (∀ v, v ∈ Api.vehicles result → Api.vehicle_key v ≠ "car") →
  ∃ state',
    reduce numberToString state (InfoReceived result) = Some (state', [])
    ∧ routingVehicle state' = Api.vehicles result !! 0%nat
    ∧ (is_Some (routingVehicle state') ↔ Api.vehicles result ≠ [])
    ∧ (Api.vehicles result = [] → routingVehicle state' = None).
Proof.
  intros Hno. eexists. split; [reflexivity|]. cbn.
  rewrite (find_car_none _ Hno).
  split; [done|]. destruct (Api.vehicles result); cbn.
  - split; [|done]. split; [by intros [? ?]|done].
  - split; [|done]. split; [done|eauto].
Qed.

(** *** Recomputing roles and colors *)

Lemma lookup_retype (n : Z) (l : list QueryPoint) (i : nat) :
  retype n l !! i
  = (λ p, withType p (getPointType (Z.of_nat i) n)) <$> l !! i.
Proof. unfold retype. by rewrite list_lookup_imap. Qed.

Lemma length_retype (n : Z) (l : list QueryPoint) :
  length (retype n l) = length l.
Proof. unfold retype. by rewrite length_imap. Qed.

Lemma ids_retype (n : Z) (l : list QueryPoint) :
  id <$> retype n l = id <$> l.
Proof.
  apply list_eq. intros i.
  rewrite !list_lookup_fmap, lookup_retype. by destruct (l !! i).
Qed.

Lemma retype_roles (l : list QueryPoint) :
  rolesAsSpecified (retype (Z.of_nat (length l)) l).
Proof.
  intros i p. rewrite lookup_retype, length_retype.
  destruct (l !! i) as [q|] eqn:Hq; [|done].
  apply lookup_lt_Some in Hq.
  intros [= <-]. cbn. unfold getPointType.
  destruct (Z.eqb_spec (Z.of_nat i) 0);
    [|destruct (Z.eqb_spec (Z.of_nat i) (Z.of_nat (length l) - 1))];
    repeat split; first [done|lia].
Qed.

(** Recomputed against one less than the length, the last of at least two
    waypoints becomes a via. *)
Lemma retype_short_last (l : list QueryPoint) :
  (2 ≤ length l)%nat →
  ∃ q, last (retype (Z.of_nat (length l) - 1) l) = Some q
    ∧ type q = Via ∧ color q = "#76D0F7".
Proof.
  intros Hl. rewrite last_lookup, lookup_retype, length_retype.
  destruct (l !! pred (length l)) as [q|] eqn:Hq.
  - eexists. split; [reflexivity|]. cbn. unfold getPointType.
    destruct (Z.eqb_spec (Z.of_nat (pred (length l))) 0); [lia|].
    destruct (Z.eqb_spec (Z.of_nat (pred (length l)))
                (Z.of_nat (length l) - 1 - 1)); [lia|]. done.
  - apply lookup_ge_None in Hq. lia.
Qed.

Lemma filter_absent_id (l : list QueryPoint) (x : Z) :
  x ∉ id <$> l → filter (λ q, id q ≠ x) l = l.
Proof.
  induction l as [|q l IH]; [done|].
  rewrite fmap_cons. intros [Hq Hl]%not_elem_of_cons.
  rewrite filter_cons_True by done. by rewrite IH.
Qed.

Lemma filter_present_id_length (l : list QueryPoint) (x : Z) :
  NoDup (id <$> l) → x ∈ id <$> l →
  S (length (filter (λ q, id q ≠ x) l)) = length l.
Proof.
  induction l as [|q l IH].
  - intros _ Hx. by apply elem_of_nil in Hx.
  - rewrite fmap_cons. intros [Hq Hnd]%NoDup_cons Hx.
    destruct (decide (id q = x)) as [<-|Hne].
    + rewrite filter_cons_False by (intros ?; done).
      by rewrite filter_absent_id.
    + rewrite filter_cons_True by done. cbn.
      apply elem_of_cons in Hx as [?|Hx]; [done|]. by rewrite IH.
Qed.

(** The two branches that recompute the roles, in terms of [retype]. *)
Lemma reduce_RemovePoint (state : QueryStoreState) (p : QueryPoint) :
  reduce numberToString state (RemovePoint p)
  = let newState :=
      {| queryPoints :=
           retype (Z.of_nat (length (queryPoints state)) - 1)
             (filter (λ q, id q ≠ id p) (queryPoints state));
         nextId := nextId state;
         routingVehicle := routingVehicle state |} in
    calls ← routeIfAllPointsSet newState; Some (newState, calls).
Proof. reflexivity. Qed.

Lemma reduce_AddPoint (state : QueryStoreState) (atIndex : Z)
    (c : Coordinate) (b : bool) :
  reduce numberToString state (AddPoint atIndex c b)
  = let tmp :=
      Js.spliceInsert (queryPoints state) atIndex
        {| coordinate := c;
           id := nextId state;
           queryText :=
             if b then numberToString (lng c) +:+ ", " +:+ numberToString (lat c)
             else "";
           color := "";
           isInitialized := b;
           type := Via;
           point := None |} in
    let newState :=
      {| nextId := nextId state + 1;
         queryPoints := retype (Z.of_nat (length tmp)) tmp;
         routingVehicle := routingVehicle state |} in
    calls ← routeIfAllPointsSet newState; Some (newState, calls).
Proof. reflexivity. Qed.

(** Under the precondition that the id to remove is the id of exactly one
    waypoint, [RemovePoint] leaves the roles as specified. *)
Lemma RemovePoint_present_roles (state : QueryStoreState) (p : QueryPoint)
    (state' : QueryStoreState) (calls : list Api.RoutingArgs) :
  NoDup (id <$> queryPoints state) →
  id p ∈ id <$> queryPoints state →
  reduce numberToString state (RemovePoint p) = Some (state', calls) →
  rolesAsSpecified (queryPoints state').
Proof.
  intros Hnd Hin Hred. rewrite reduce_RemovePoint in Hred. cbv zeta in Hred.
  destruct (routeIfAllPointsSet _) as [calls'|]; [|done].
  cbn in Hred. injection Hred as <- _. cbn.
  pose proof (filter_present_id_length _ _ Hnd Hin) as Hlen.
  pose proof (retype_roles (filter (λ q, id q ≠ id p) (queryPoints state))) as Hr.
  replace (Z.of_nat (length (filter (λ q, id q ≠ id p) (queryPoints state))))
    with (Z.of_nat (length (queryPoints state)) - 1) in Hr by lia.
  exact Hr.
Qed.

Lemma AddPoint_roles (state : QueryStoreState) (atIndex : Z) (c : Coordinate)
    (b : bool) (state' : QueryStoreState) (calls : list Api.RoutingArgs) :
  reduce numberToString state (AddPoint atIndex c b) = Some (state', calls) →
  rolesAsSpecified (queryPoints state').
Proof.
  intros Hred. rewrite reduce_AddPoint in Hred. cbv zeta in Hred.
  destruct (routeIfAllPointsSet _) as [calls'|]; [|done].
  cbn in Hred. injection Hred as <- _. cbn. apply retype_roles.
Qed.

Lemma routeIfAllPointsSet_not_ready (state : QueryStoreState) :
  ¬ routeReady state → routeIfAllPointsSet state = Some [].
Proof.
  intros Hr. unfold routeIfAllPointsSet.
  pose proof (routeReady_guard state) as Hg.
  destruct ((1 <? Z.of_nat (length (queryPoints state)))
            && forallb isInitialized (queryPoints state)); [|done].
  destruct Hr. by apply Hg.
Qed.

(** Assigning the roles anew changes neither the number of waypoints nor
    their flags, so it does not change whether the state is ready. *)
Lemma routeReady_retype (state : QueryStoreState) (n : Z) :
  routeReady {| queryPoints := retype n (queryPoints state);
                nextId := nextId state;
                routingVehicle := routingVehicle state |}
  ↔ routeReady state.
Proof.
  unfold routeReady. cbn [queryPoints]. rewrite length_retype.
  rewrite !Forall_lookup. split; intros [Hlen Hall]; (split; [done|]).
  - intros i q Hq.
    apply (Hall i (withType q (getPointType (Z.of_nat i) n))).
    by rewrite lookup_retype, Hq.
  - intros i q' Hq'. rewrite lookup_retype in Hq'.
    destruct (queryPoints state !! i) as [q|] eqn:Hq; [|done].
    injection Hq' as <-. exact (Hall i q Hq).
Qed.

(** C9, amended.  When the id of the point of a [RemovePoint] is the id of
    no waypoint, the transition throws if the profile is undefined and the
    state is ready for routing.  In every other state it completes and
    removes nothing: the waypoints keep their number, order, ids,
    coordinates, texts and flags, and get the role and color of their
    position in a list one shorter than it is.  With at least two waypoints
    the last one therefore becomes a via (not the end), and the roles are
    not as specified. *)
Theorem C9_RemovePoint_absent_id_miscounts
    (state : QueryStoreState) (p : QueryPoint) :
  id p ∉ id <$> queryPoints state →
  (routingVehicle state = None → routeReady state →
   reduce numberToString state (RemovePoint p) = None)
  ∧ (is_Some (routingVehicle state) ∨ ¬ routeReady state →
     ∃ state' calls,
       reduce numberToString state (RemovePoint p) = Some (state', calls)
       ∧ length (queryPoints state') = length (queryPoints state)
       ∧ Forall2 (λ q q',
           id q' = id q ∧ coordinate q' = coordinate q
           ∧ queryText q' = queryText q ∧ isInitialized q' = isInitialized q)
           (queryPoints state) (queryPoints state')
       ∧ (∀ (i : nat) q', queryPoints state' !! i = Some q' →
            type q'
            = getPointType (Z.of_nat i)
                (Z.of_nat (length (queryPoints state)) - 1)
            ∧ color q' = getMarkerColor (type q'))
       ∧ ((2 ≤ length (queryPoints state))%nat →
          (∃ q', last (queryPoints state') = Some q'
             ∧ type q' = Via ∧ color q' = "#76D0F7")
          ∧ ¬ rolesAsSpecified (queryPoints state'))).
Proof.
  intros Habsent.
  set (points' := retype (Z.of_nat (length (queryPoints state)) - 1)
                    (queryPoints state)).
  set (state' := {| queryPoints := points'; nextId := nextId state;
                    routingVehicle := routingVehicle state |}).
  assert (reduce numberToString state (RemovePoint p)
          = calls ← routeIfAllPointsSet state'; Some (state', calls)) as Hred.
  { by rewrite reduce_RemovePoint, (filter_absent_id _ _ Habsent). }
  split.
  { intros Hv Hr. rewrite Hred.
    rewrite (routeIfAllPointsSet_undefined_profile state'); [done|exact Hv|].
    exact (proj2 (routeReady_retype state _) Hr). }
  intros Hcompletes.
  assert (∃ calls, routeIfAllPointsSet state' = Some calls) as [calls Hcalls].
  { destruct Hcompletes as [[v Hv]|Hr].
    - destruct (routeIfAllPointsSet_calls state' v Hv) as (calls & ? & _).
      by exists calls.
    - exists []. apply routeIfAllPointsSet_not_ready.
      intros Hr'. apply Hr. exact (proj1 (routeReady_retype state _) Hr'). }
  exists state', calls. split; [by rewrite Hred, Hcalls|].
  clear Hcalls Hred. subst state' points'. cbn.
  split; [apply length_retype|]. split.
  { apply Forall2_same_length_lookup. split; [by rewrite length_retype|].
    intros i q q' Hq Hq'. rewrite lookup_retype, Hq in Hq'.
    by injection Hq' as <-. }
  split.
  { intros i q' Hq'. rewrite lookup_retype in Hq'.
    destruct (queryPoints state !! i); [|done]. by injection Hq' as <-. }
  intros Hlen.
  destruct (retype_short_last (queryPoints state) Hlen) as (q' & Hlast & Hvia & Hcol).
  split; [by exists q'|].
  intros Hroles. rewrite last_lookup in Hlast.
  destruct (Hroles _ _ Hlast) as (_ & Hto & _).
  rewrite length_retype in Hto.
  rewrite Hto in Hvia; [done|lia..].
Qed.

(** *** Identifiers *)

Lemma ids_replace (l : list QueryPoint) (newPoint : QueryPoint) :
  id <$> replace l newPoint = id <$> l.
Proof.
  unfold replace. rewrite <- list_fmap_compose. apply list_fmap_ext.
  intros i q _. cbn. destruct (Z.eqb_spec (id q) (id newPoint)); done.
Qed.

Lemma ids_spliceInsert (l : list QueryPoint) (start : Z) (item : QueryPoint) :
  id <$> Js.spliceInsert l start item ≡ₚ id item :: (id <$> l).
Proof.
  unfold Js.spliceInsert. rewrite fmap_app, fmap_cons.
  rewrite <- Permutation_middle. apply Permutation_skip.
  by rewrite <- fmap_app, take_drop.
Qed.

Ltac reduce_inv H :=
  first [ rewrite reduce_AddPoint in H
        | rewrite reduce_RemovePoint in H
        | unfold reduce in H ];
  cbv zeta in H;
  try (destruct (routeIfAllPointsSet _) as [?|]; [|discriminate H]);
  cbn in H; injection H as <- <-.

(** What a transition that completes does to [nextId] and to the ids of
    the waypoints: [AddPoint] increments [nextId] and adds the id it was;
    every other transition keeps [nextId] and adds no id. *)
Lemma reduce_ids (state : QueryStoreState) (action : Action)
    (state' : QueryStoreState) (calls : list Api.RoutingArgs) :
  reduce numberToString state action = Some (state', calls) →
  nextId state' = (if isAddPoint action then nextId state + 1 else nextId state)
  ∧ (if isAddPoint action
     then id <$> queryPoints state' ≡ₚ nextId state :: (id <$> queryPoints state)
     else id <$> queryPoints state' `sublist_of` id <$> queryPoints state).
Proof.
  intros Hred.
  destruct action; reduce_inv Hred; cbn; (split; [done|]);
    rewrite ?ids_replace, ?ids_retype; try done.
  - apply ids_spliceInsert.
  - rewrite <- list_fmap_compose. done.
  - apply fmap_sublist, sublist_filter.
Qed.

Lemma reduce_idsFresh (state : QueryStoreState) (action : Action)
    (state' : QueryStoreState) (calls : list Api.RoutingArgs) :
  idsFresh state →
  reduce numberToString state action = Some (state', calls) →
  idsFresh state'.
Proof.
  intros [Hnd Hlt] Hred.
  destruct (reduce_ids _ _ _ _ Hred) as [Hnext Hids]. unfold idsFresh.
  rewrite Hnext. destruct (isAddPoint action).
  - rewrite Hids. split.
    + apply NoDup_cons. split; [|done].
      intros Hin. rewrite Forall_forall in Hlt. specialize (Hlt _ Hin). lia.
    + apply Forall_cons. split; [lia|].
      eapply Forall_impl; [exact Hlt|]. cbn. lia.
  - split; [by eapply sublist_NoDup|].
    apply Forall_forall. intros i Hi.
    rewrite Forall_forall in Hlt. apply Hlt. by eapply elem_of_sublist.
Qed.

Lemma receive_idsFresh (state : QueryStoreState) (action : Action) :
  idsFresh state → idsFresh (receive numberToString state action).1.
Proof.
  intros Hfresh. unfold receive.
  destruct (reduce numberToString state action) as [[state' calls]|] eqn:Hred;
    [|done].
  by eapply reduce_idsFresh.
Qed.

(** Every transition completes when the profile is defined. *)
Lemma reduce_completes (state : QueryStoreState) (action : Action) :
  is_Some (routingVehicle state) →
  is_Some (reduce numberToString state action).
Proof.
  intros [v Hv].
  assert (∀ state', is_Some (routingVehicle state') →
    is_Some (calls ← routeIfAllPointsSet state'; Some (state', calls))) as Hroute.
  { intros state' [v' Hv'].
    destruct (routeIfAllPointsSet_calls state' v' Hv') as (calls & -> & _).
    by eexists. }
  destruct action; first [ by eexists | apply Hroute; by eexists ].
Qed.

Lemma session_cons (state : QueryStoreState) (action : Action)
    (actions : list Action) :
  (session numberToString state (action :: actions)).1
  = (session numberToString (receive numberToString state action).1 actions).1.
Proof.
  cbn. destruct (receive numberToString state action) as [state' calls].
  cbn. by destruct (session numberToString state' actions).
Qed.





Lemma countAddPoints_cons (action : Action) (actions : list Action) :
  countAddPoints (action :: actions)
  = ((if isAddPoint action then 1 else 0) + countAddPoints actions)%nat.
Proof.
  unfold countAddPoints. destruct (isAddPoint action) eqn:Hadd.
  - by rewrite filter_cons_True.
  - rewrite filter_cons_False; [done|]. by rewrite Hadd.
Qed.

Lemma countAddPoints_snoc (actions : list Action) (action : Action) :
  countAddPoints (actions ++ [action])
  = (countAddPoints actions + if isAddPoint action then 1 else 0)%nat.
Proof.
  unfold countAddPoints. rewrite filter_app, length_app.
  fold (countAddPoints [action]). rewrite countAddPoints_cons.
  unfold countAddPoints. cbn. lia.
Qed.


(** The binary64 sum [n + 1] is the integer sum up to 2^53 and stays put
    from there on: this is why the properties of [nextId] below are stated
    for sessions that keep it below 2^53. *)
Example binary64_increment_at_2_53 :
  (Js.numberOfZ (2 ^ 53 - 1) + 1)%float = Js.numberOfZ (2 ^ 53)
  ∧ (Js.numberOfZ (2 ^ 53) + 1)%float = Js.numberOfZ (2 ^ 53).
Proof. split; vm_compute; reflexivity. Qed.




(** *** Roles along a session of insertions and removals *)

Lemma initial_roles : rolesAsSpecified (queryPoints getInitialState).
Proof.
  intros [|[|i]] p Hp; cbn in Hp; simplify_eq; cbn;
    repeat split; first [done|lia].
Qed.

Lemma reduce_keeps_profile (state : QueryStoreState) (action : Action)
    (state' : QueryStoreState) (calls : list Api.RoutingArgs) :
  isAddOrRemove action = true →
  reduce numberToString state action = Some (state', calls) →
  routingVehicle state' = routingVehicle state.
Proof. intros Ha Hred. destruct action; try done; by reduce_inv Hred. Qed.

(** Under the precondition that every removal names a waypoint that is
    there, insertions and removals keep the roles as specified. *)
Lemma roles_kept_when_removals_present (actions : list Action)
    (state : QueryStoreState) :
  Forall (λ action, isAddOrRemove action = true) actions →
  idsFresh state →
  is_Some (routingVehicle state) →
  rolesAsSpecified (queryPoints state) →
  removalsPresent numberToString state actions →
  rolesAsSpecified (queryPoints (session numberToString state actions).1).
Proof.
  revert state.
  induction actions as [|action actions IH];
    intros state Hkind Hfresh Hv Hroles Hpresent; [done|].
  apply Forall_cons in Hkind as [Ha Hkind]. destruct Hpresent as [Hp Hpresent].
  rewrite session_cons.
  pose proof (receive_idsFresh state action Hfresh) as Hfresh'.
  unfold receive in *.
  destruct (reduce_completes state action Hv) as [[state' calls] Hred].
  rewrite Hred in *. cbn [fst] in *.
  apply IH; [done|done| | |done].
  - by rewrite (reduce_keeps_profile _ _ _ _ Ha Hred).
  - destruct action; try done.
    + by eapply AddPoint_roles.
    + eapply RemovePoint_present_roles; [apply Hfresh|done..].
Qed.

End QueryStoreProperties.


(** ** The properties on concrete sessions *)

Section QueryStoreExamples.

Import QueryStore.

(** The end-to-end scenario: setting the start requests nothing, setting
    the end requests one route through both coordinates in order. *)
Example scenario_two_points :
  (session constantToString getInitialState [SetPoint startPoint]).2 = []
  ∧ Api.points
      <$> (session constantToString getInitialState
             [SetPoint startPoint; SetPoint endPoint]).2
    = [[(13.4, 52.5); (11.6, 48.1)]%float].
Proof. split; reflexivity. Qed.

(** C1, as stated, fails: [InfoReceived] arrives in a state that is ready
    for routing, the resulting state is ready as well, and no route is
    requested. *)
Lemma C1_InfoReceived_counterexample :
  ¬ (∀ (state : QueryStoreState) (action : Action)
       (state' : QueryStoreState) (calls : list Api.RoutingArgs),
       reduce constantToString state action = Some (state', calls) →
       (calls ≠ [] ↔ routeReady state')).
Proof.
  intros Hclaim.
  destruct (Hclaim bothSet (InfoReceived (infoOf [carProfile])) _ _ eq_refl)
    as [_ Hemit].
  apply Hemit; [|reflexivity].
  split; [vm_compute; lia|]. repeat constructor.
Qed.

Lemma C1_second_point_witness :
  is_Some (routingVehicle startSet)
  ∧ ∃ state' calls,
      reduce constantToString startSet (SetPoint endPoint) = Some (state', calls)
      ∧ routeReady state'
      ∧ Api.points <$> calls = [[(13.4, 52.5); (11.6, 48.1)]%float].
Proof.
  split; [eexists; reflexivity|].
  destruct (C1_route_requested_iff_ready constantToString startSet
              (SetPoint endPoint) (ex_intro _ _ eq_refl))
    as (state' & calls & Hred & _ & _).
  exists state', calls. split; [exact Hred|].
  vm_compute in Hred. injection Hred as <- <-.
  split; [|reflexivity].
  split; [vm_compute; lia|]. repeat constructor.
Defined.

(** C2 fails on the code: after an insertion and the double removal of
    the inserted waypoint, the two waypoints left are a start and a via;
    the last one is not the end. *)
Theorem C2_double_removal_breaks_roles :
  Forall (λ action, isAddOrRemove action = true) doubleRemoval
  ∧ (let points :=
       queryPoints (session constantToString getInitialState doubleRemoval).1 in
     (λ p, (id p, type p, color p)) <$> points
     = [(0, From, "#417900"); (1, Via, "#76D0F7")]
     ∧ ¬ rolesAsSpecified points).
Proof.
  split; [repeat constructor|]. cbv zeta. split; [reflexivity|].
  intros Hroles.
  destruct (Hroles 1%nat (withType (getEmptyPoint 1 To) Via) eq_refl)
    as (_ & Hto & _).
  discriminate Hto; [vm_compute; lia|reflexivity].
Qed.

Lemma C9_absent_id_witness :
  (7 ∉ id <$> queryPoints getInitialState)
  ∧ ∃ state' calls,
      reduce constantToString getInitialState (RemovePoint (getEmptyPoint 7 Via))
      = Some (state', calls)
      ∧ (λ p, (id p, type p)) <$> queryPoints state' = [(0, From); (1, Via)].
Proof.
  assert (7 ∉ id <$> queryPoints getInitialState) as Habsent.
  { cbn. intros [?|[?|?%elem_of_nil]%elem_of_cons]%elem_of_cons; done. }
  split; [exact Habsent|].
  destruct (proj2 (C9_RemovePoint_absent_id_miscounts constantToString
                     getInitialState (getEmptyPoint 7 Via) Habsent)
              (or_introl (ex_intro _ _ eq_refl)))
    as (state' & calls & Hred & _).
  exists state', calls. split; [exact Hred|].
  vm_compute in Hred. injection Hred as <- <-. reflexivity.
Defined.

(** C9 as it is worded, without the precondition: with the profile lost and
    both waypoints set, the removal of an absent id throws, so no waypoint
    is kept and none is made a via. *)
Lemma C9_lost_profile_counterexample :
  ¬ (∀ (state : QueryStoreState) (p : QueryPoint),
       id p ∉ id <$> queryPoints state →
       ∃ state' calls,
         reduce constantToString state (RemovePoint p) = Some (state', calls)
         ∧ length (queryPoints state') = length (queryPoints state)).
Proof.
  intros Hclaim.
  destruct (Hclaim lostProfile (getEmptyPoint 7 Via)) as (? & ? & Hred & _).
  - vm_compute.
    intros [?|[?|?%elem_of_nil]%elem_of_cons]%elem_of_cons; done.
  - vm_compute in Hred. discriminate Hred.
Qed.



Lemma C10_no_car_witness :
  (∀ v, v ∈ [bikeProfile; footProfile] → Api.vehicle_key v ≠ "car")
  ∧ ∃ state',
      reduce constantToString getInitialState
        (InfoReceived (infoOf [bikeProfile; footProfile])) = Some (state', [])
      ∧ routingVehicle state' = Some bikeProfile.
Proof.
  assert (∀ v, v ∈ [bikeProfile; footProfile] → Api.vehicle_key v ≠ "car")
    as Hno.
  { intros v [->|[->|?%elem_of_nil]%elem_of_cons]%elem_of_cons; done. }
  split; [exact Hno|].
  destruct (C10_InfoReceived_first_vehicle_needs_nonempty constantToString
              getInitialState (infoOf [bikeProfile; footProfile]) Hno)
    as (state' & Hred & Hfirst & _).
  exists state'. split; [exact Hred|]. exact Hfirst.
Defined.

(** With an empty list of vehicles the profile becomes undefined, and the
    next transition that is ready for routing throws. *)
Example empty_info_then_route_throws :
  reduce constantToString bothSet (InfoReceived (infoOf []))
  = Some ({| queryPoints := queryPoints bothSet; nextId := 2;
             routingVehicle := None |}, [])
  ∧ reduce constantToString
      {| queryPoints := queryPoints bothSet; nextId := 2; routingVehicle := None |}
      (SetPoint endPoint) = None.
Proof. split; reflexivity. Qed.

End QueryStoreExamples.


(** ** Further properties of the routing client *)

Section DecodingProperties.

Import Api.

(** *** One number of the encoding *)

Lemma toInt32_small (z : Z) : - 2 ^ 31 ≤ z < 2 ^ 31 → Js.toInt32 z = z.
Proof. intros Hz. unfold Js.toInt32. rewrite Z.mod_small; lia. Qed.

Lemma land_low_high (r d s : Z) :
  0 ≤ s → 0 ≤ r < 2 ^ s → Z.land r (d * 2 ^ s) = 0.
Proof.
  intros Hs Hr. apply Z.bits_inj'. intros n Hn.
  rewrite Z.land_spec, Z.bits_0.
  destruct (Z.lt_ge_cases n s) as [Hlt|Hge].
  - rewrite Z.mul_pow2_bits_low by lia. apply andb_false_r.
  - destruct (Z.eq_dec r 0) as [->|Hr0]; [by rewrite Z.bits_0|].
    rewrite Z.bits_above_log2; [done|lia|].
    apply Z.log2_lt_pow2; [lia|].
    eapply Z.lt_le_trans; [apply Hr|]. apply Z.pow_le_mono_r; lia.
Qed.

(** One round of the inner loop of [decodePath]: the five payload bits of
    the character go above the bits read so far. *)
Lemma chunk_step (r s d b : Z) :
  0 ≤ s ≤ 25 → 0 ≤ r < 2 ^ s → 0 ≤ d < 32 → b = d ∨ b = d + 32 →
  Js.or32 r (Js.shl32 (Js.and32 b 0x1f) s) = r + d * 2 ^ s.
Proof.
  intros Hs Hr Hd Hb.
  assert (2 ^ s ≤ 2 ^ 25) as Hpow by (apply Z.pow_le_mono_r; lia).
  assert (0 < 2 ^ s) as Hpos by (apply Z.pow_pos_nonneg; lia).
  assert (Js.and32 b 0x1f = d) as ->.
  { unfold Js.and32. rewrite !toInt32_small by lia.
    change 31 with (Z.ones 5). rewrite Z.land_ones by lia.
    change (2 ^ 5) with 32. destruct Hb as [->| ->].
    - apply Z.mod_small; lia.
    - replace (d + 32) with (d + 1 * 32) by lia.
      rewrite Z.mod_add by lia. apply Z.mod_small; lia. }
  assert (d * 2 ^ s < 2 ^ 30) as Hhigh.
  { change (2 ^ 30) with (32 * 2 ^ 25). nia. }
  assert (Js.shl32 d s = d * 2 ^ s) as ->.
  { unfold Js.shl32. rewrite (toInt32_small d) by lia.
    rewrite (Z.mod_small s 32) by lia.
    rewrite Z.shiftl_mul_pow2 by lia. apply toInt32_small. nia. }
  unfold Js.or32. rewrite !toInt32_small by nia.
  rewrite <- (Z.add_lor_land r (d * 2 ^ s)), land_low_high by lia. lia.
Qed.

Lemma readChunks_digits_from (digits : list Z) (last : Z) (rest : list Z)
    (s r : Z) :
  Forall (λ d, 0 ≤ d < 32) digits → 0 ≤ last < 32 →
  0 ≤ s → s + 5 * Z.of_nat (length digits) ≤ 25 → 0 ≤ r < 2 ^ s →
  readChunks (chunkChars digits last ++ rest) s r
  = (r + 2 ^ s * digitsValue (digits ++ [last]), rest).
Proof.
  revert s r. induction digits as [|d digits IH]; intros s r Hds Hl Hs Hlen Hr.
  - cbn [length] in Hlen. cbn [chunkChars fmap list_fmap app readChunks].
    replace (last + 63 - 63) with last by lia.
    rewrite (chunk_step r s last last) by (auto; lia).
    destruct (Z.leb_spec 32 last); [lia|]. f_equal.
    cbn [app foldr digitsValue]. lia.
  - apply Forall_cons in Hds as [Hd Hds]. cbn [length] in Hlen.
    cbn [chunkChars fmap list_fmap app readChunks].
    replace (d + 32 + 63 - 63) with (d + 32) by lia.
    rewrite (chunk_step r s d (d + 32)) by (auto; lia).
    destruct (Z.leb_spec 32 (d + 32)); [|lia].
    assert (0 < 2 ^ s) as Hpos by (apply Z.pow_pos_nonneg; lia).
    fold (chunkChars digits last).
    rewrite IH; [|done|done|lia|lia|].
    + f_equal. cbn [app foldr digitsValue].
      fold (digitsValue (digits ++ [last])).
      rewrite Z.pow_add_r by lia. change (2 ^ 5) with 32. lia.
    + rewrite Z.pow_add_r by lia. change (2 ^ 5) with 32. nia.
Qed.

(** A number written as at most six base-32 digits, least significant
    first, with the continuation bit on all characters but the last, is read
    back as the value of its digits, and the characters after it are left
    for the next number. *)
Theorem readChunks_reads_digits (digits : list Z) (last : Z) (rest : list Z) :
  Forall (λ d, 0 ≤ d < 32) digits → 0 ≤ last < 32 →
  (length digits ≤ 5)%nat →
  readChunks (chunkChars digits last ++ rest) 0 0
  = (digitsValue (digits ++ [last]), rest).
Proof.
  intros Hds Hl Hlen.
  rewrite readChunks_digits_from; [|done|done|lia|lia|done].
  f_equal. change (2 ^ 0) with 1. lia.
Qed.

Lemma readChunks_reads_digits_witness :
  Forall (λ d, 0 ≤ d < 32) [0; 17; 31; 10] ∧ 0 ≤ 7 < 32
  ∧ (length [0; 17; 31; 10] ≤ 5)%nat
  ∧ chunkChars [0; 17; 31; 10] 7 = Js.codeUnits "_p~iF"
  ∧ readChunks (Js.codeUnits "_p~iF" ++ Js.codeUnits "~ps|U") 0 0
    = (7700000, Js.codeUnits "~ps|U").
Proof.
  assert (Forall (λ d, 0 ≤ d < 32) [0; 17; 31; 10]) as Hds
    by (repeat constructor; lia).
  assert (0 ≤ 7 < 32) as Hl by lia.
  assert (length [0; 17; 31; 10] ≤ 5)%nat as Hlen by (simpl; lia).
  split; [exact Hds|]. split; [exact Hl|]. split; [exact Hlen|].
  split; [reflexivity|].
  exact (readChunks_reads_digits [0; 17; 31; 10] 7 (Js.codeUnits "~ps|U")
           Hds Hl Hlen).
Defined.

(** [unzigzag] undoes the zig-zag code on the 31-bit signed numbers. *)
Theorem unzigzag_zigzag (d : Z) :
  - 2 ^ 30 ≤ d < 2 ^ 30 → unzigzag (zigzag d) = d.
Proof.
  intros Hd. set (n := zigzag d).
  assert (0 ≤ n < 2 ^ 31) as Hn.
  { subst n. unfold zigzag. destruct (Z.ltb_spec d 0); lia. }
  unfold unzigzag, Js.and32, Js.sar32, Js.not32.
  rewrite (toInt32_small n) by lia.
  change (Js.toInt32 1) with 1. change (1 mod 32) with 1.
  replace (Z.land n 1) with (n mod 2)
    by (symmetry; apply (Z.land_ones n 1); lia).
  rewrite Z.shiftr_div_pow2 by lia. change (2 ^ 1) with 2.
  assert (0 ≤ n / 2 < 2 ^ 30) as Hhalf.
  { split; [apply Z.div_pos; lia|]. apply Z.div_lt_upper_bound; lia. }
  rewrite (toInt32_small (n / 2)) by lia.
  unfold Z.lnot. subst n. unfold zigzag in *.
  destruct (Z.ltb_spec d 0);
    match goal with
    | |- context [?x mod 2 =? 0] => destruct (Z.eqb_spec (x mod 2) 0)
    end;
    Z.to_euclidean_division_equations; lia.
Qed.

Lemma unzigzag_zigzag_witness :
  - 2 ^ 30 ≤ -12020000 < 2 ^ 30
  ∧ zigzag (-12020000) = 24039999
  ∧ unzigzag 24039999 = -12020000.
Proof.
  assert (- 2 ^ 30 ≤ -12020000 < 2 ^ 30) as Hd by lia.
  split; [exact Hd|]. split; [reflexivity|].
  exact (unzigzag_zigzag (-12020000) Hd).
Defined.

(** *** How many points a string holds *)

Lemma readChunks_shrinks (rest : list Z) (shift result : Z) :
  (readChunks rest shift result).2 = []
  ∨ (length (readChunks rest shift result).2 < length rest)%nat.
Proof.
  destruct rest as [|c rest]; [by left|].
  right. apply readChunks_consumes.
Qed.

Lemma readChunks_nil (shift result : Z) : (readChunks [] shift result).2 = [].
Proof. done. Qed.

Lemma decodeLoop_nil (fuel : nat) (is3D : bool) (lat lng ele : float)
    (array : list (list float)) :
  decodeLoop fuel is3D [] lat lng ele array = array.
Proof. by destruct fuel. Qed.

Lemma decodeLoop_count (fuel : nat) (is3D : bool) (rest : list Z)
    (lat lng ele : float) (array : list (list float)) :
  let arity := if is3D then 3%nat else 2%nat in
  (arity * length (decodeLoop fuel is3D rest lat lng ele array)
   ≤ arity * length array + length rest + (arity - 1))%nat.
Proof.
  cbv zeta. revert rest lat lng ele array.
  induction fuel as [|fuel IH]; intros rest lat lng ele array.
  - destruct rest, is3D; cbn [decodeLoop]; lia.
  - destruct rest as [|c rest]; [destruct is3D; cbn [decodeLoop]; lia|].
    cbn [decodeLoop].
    pose proof (readChunks_consumes c rest 0 0) as H1.
    destruct (readChunks (c :: rest) 0 0) as [r1 rest1].
    pose proof (readChunks_shrinks rest1 0 0) as H2.
    destruct (readChunks rest1 0 0) as [r2 rest2].
    cbn [fst snd length] in *.
    destruct is3D.
    + pose proof (readChunks_shrinks rest2 0 0) as H3.
      destruct (readChunks rest2 0 0) as [r3 rest3]. cbn [snd] in H3.
      match goal with |- context [decodeLoop fuel true rest3 ?a ?b ?c ?arr] =>
        specialize (IH rest3 a b c arr) end.
      rewrite length_app in IH. cbn [length] in IH.
      destruct H3 as [->|H3].
      * rewrite decodeLoop_nil, length_app. cbn [length]. lia.
      * destruct H2 as [->|H2]; [cbn in H3; lia|]. lia.
    + match goal with |- context [decodeLoop fuel false rest2 ?a ?b ?c ?arr] =>
        specialize (IH rest2 a b c arr) end.
      rewrite length_app in IH. cbn [length] in IH.
      destruct H2 as [->|H2].
      * rewrite decodeLoop_nil, length_app. cbn [length]. lia.
      * lia.
Qed.

Lemma decodeLoop_extends (fuel : nat) (is3D : bool) (rest : list Z)
    (lat lng ele : float) (array : list (list float)) :
  (length array ≤ length (decodeLoop fuel is3D rest lat lng ele array))%nat.
Proof.
  revert rest lat lng ele array.
  induction fuel as [|fuel IH]; intros rest lat lng ele array.
  - by destruct rest.
  - destruct rest as [|c rest]; [done|]. cbn [decodeLoop].
    destruct (readChunks (c :: rest) 0 0) as [r1 rest1].
    destruct (readChunks rest1 0 0) as [r2 rest2].
    destruct is3D; [destruct (readChunks rest2 0 0) as [r3 rest3]|];
      (etrans; [|apply IH]); rewrite length_app; lia.
Qed.

Lemma length_codeUnits (s : string) :
  length (Js.codeUnits s) = String.length s.
Proof.
  unfold Js.codeUnits. rewrite length_fmap.
  induction s as [|a s IH]; cbn; [done|]. by rewrite IH.
Qed.

(** [decodePath] returns on every string, also on one that ends in the
    middle of a point.  A string of [n] characters gives at most
    [(n + 1) / 2] points in the 2-D variant and [(n + 2) / 3] in the 3-D
    variant, and no point at all only when it is empty. *)
Theorem decodePath_point_count (encoded : string) (is3D : bool) :
  let arity := if is3D then 3%nat else 2%nat in
  (arity * length (decodePath encoded is3D)
   ≤ String.length encoded + (arity - 1))%nat
  ∧ (decodePath encoded is3D = [] ↔ encoded = "").
Proof.
  cbv zeta. unfold decodePath. split.
  - pose proof (decodeLoop_count (length (Js.codeUnits encoded)) is3D
                  (Js.codeUnits encoded) 0 0 0 []) as H.
    cbv zeta in H. rewrite length_codeUnits in *. cbn [length] in H. lia.
  - split; [|by intros ->].
    destruct encoded as [|a encoded]; [done|].
    intros Hempty. exfalso.
    change (Js.codeUnits (String a encoded))
      with (Z.of_N (N_of_ascii a) :: Js.codeUnits encoded) in Hempty.
    cbn [length decodeLoop] in Hempty.
    destruct (readChunks (_ :: _) 0 0) as [r1 rest1].
    destruct (readChunks rest1 0 0) as [r2 rest2].
    destruct is3D; [destruct (readChunks rest2 0 0) as [r3 rest3]|];
      match type of Hempty with
      | decodeLoop ?f ?b ?r ?x ?y ?z ?arr = [] =>
          pose proof (decodeLoop_extends f b r x y z arr) as Hext
      end;
      rewrite Hempty in Hext; cbn in Hext; lia.
Qed.

End DecodingProperties.


(** ** Further properties of the instruction geometry and of the response *)

Section ResultProperties.

Import Api ApiResult.

Lemma slice_segment {A} (l : list A) (start end_ : Z) :
  ∃ pre post, l = pre ++ Js.slice l start end_ ++ post.
Proof.
  unfold Js.slice.
  set (k := Z.to_nat (Js.relativeIndex (Z.of_nat (length l)) start)).
  set (n := Z.to_nat _).
  exists (take k l), (drop n (drop k l)).
  by rewrite take_drop, take_drop.
Qed.

Lemma slice_length_nonneg {A} (l : list A) (s e : Z) :
  0 ≤ s → 0 ≤ e →
  length (Js.slice l s (e + 1))
  = Z.to_nat (Z.min (e + 1) (Z.of_nat (length l)) - Z.min s (Z.of_nat (length l))).
Proof.
  intros Hs He. unfold Js.slice, Js.relativeIndex.
  destruct (Z.ltb_spec s 0); [lia|].
  destruct (Z.ltb_spec (e + 1) 0); [lia|].
  rewrite length_take, length_drop. lia.
Qed.

(** Whatever the interval of an instruction is, negative or beyond the end
    of the path included, [setPointsOnInstructions] does not fail, and the
    points it gives the instruction are a run of consecutive coordinates of
    the path; without a list of instructions it returns none. *)
Theorem setPointsOnInstructions_gives_runs (path : Path) :
  match setPointsOnInstructions path with
  | Some instrs' =>
      ∃ instrs,
        instructions path = Some instrs
        ∧ length instrs' = length instrs
        ∧ Forall (λ instr',
            ∃ before after,
              coordinates (path_points path)
              = before ++ instr_points instr' ++ after) instrs'
  | None => instructions path = None
  end.
Proof.
  unfold setPointsOnInstructions.
  destruct (instructions path) as [instrs|]; [|done].
  exists instrs. split; [done|]. split; [by rewrite length_fmap|].
  apply Forall_fmap, Forall_forall. intros instr _. cbn.
  apply slice_segment.
Qed.

(** For an interval of indices that are not negative, an instruction gets
    no point exactly when the interval is reversed or starts at or beyond
    the end of the path. *)
Theorem setPointsOnInstructions_empty_iff (path : Path) :
  match setPointsOnInstructions path with
  | Some instrs' =>
      Forall (λ instr',
        let startIdx := (interval instr').1 in
        let endIdx := (interval instr').2 in
        0 ≤ startIdx → 0 ≤ endIdx →
        (instr_points instr' = []
         ↔ endIdx < startIdx
           ∨ Z.of_nat (length (coordinates (path_points path))) ≤ startIdx))
        instrs'
  | None => instructions path = None
  end.
Proof.
  unfold setPointsOnInstructions.
  destruct (instructions path) as [instrs|]; [|done].
  apply Forall_fmap, Forall_forall. intros instr _. cbn.
  intros Hs He.
  rewrite <- length_zero_iff_nil, slice_length_nonneg by done. lia.
Qed.

(** *** Decoding a response *)

Lemma decodePathValue_arity (value : string + LineString) :
  Forall (λ p, length p = 2%nat) (decodePathValue value).
Proof.
  destruct value as [encoded|?]; [|constructor].
  apply (decodeLoop_arity _ false). constructor.
Qed.

Lemma slice_elements {A} (l : list A) (start end_ : Z) (x : A) :
  x ∈ Js.slice l start end_ → x ∈ l.
Proof.
  destruct (slice_segment l start end_) as (pre & post & Hl).
  intros Hx. rewrite Hl, !elem_of_app. tauto.
Qed.

(** What [decodeResult] makes of one path whose points are flagged as
    encoded. *)
Definition decodedFrom (path path' : RawPath) : Prop :=
  let coords := decodePathValue (raw_points path) in
  raw_points path' = inr {| type := "LineString"; coordinates := coords |}
  ∧ raw_snapped_waypoints path'
    = inr {| type := "LineString";
             coordinates := decodePathValue (raw_snapped_waypoints path) |}
  ∧ (raw_distance path', raw_time path', raw_points_encoded path')
    = (raw_distance path, raw_time path, raw_points_encoded path)
  ∧ match raw_instructions path, raw_instructions path' with
    | None, None => True
    | Some instrs, Some instrs' =>
        Forall2 (λ instr instr',
          interval instr' = interval instr
          ∧ instr_points instr'
            = Js.slice coords (interval instr).1 ((interval instr).2 + 1)
          ∧ Forall (λ p, p ∈ coords ∧ length p = 2%nat) (instr_points instr'))
          instrs instrs'
    | _, _ => False
    end.

(** When every path of a response is flagged as encoded, [decodeResult]
    does not fail; it keeps the paths in number and order, replaces points
    and snapped waypoints by the line strings [decodePath] gives in the 2-D
    variant (the empty line string for a value that is no string), and gives
    every instruction the slice of the decoded coordinates of its interval:
    points of two entries, all among the decoded coordinates. *)
Theorem decodeResult_encoded (result : RawResult) :
  Forall (λ path, raw_points_encoded path = true) (raw_paths result) →
  ∃ paths',
    decodeResult result = Some paths'
    ∧ Forall2 decodedFrom (raw_paths result) paths'.
Proof.
  intros Hflags. unfold decodeResult. cbv zeta.
  induction (raw_paths result) as [|path paths IH].
  { exists []. split; [done|constructor]. }
  apply Forall_cons in Hflags as [Hflag Hflags].
  destruct (IH Hflags) as (paths' & Hdecode & Hall). clear IH.
  assert (decodePoints path
          = inr {| type := "LineString";
                   coordinates := decodePathValue (raw_points path) |}) as Hpts
    by (unfold decodePoints; by rewrite Hflag).
  assert (decodeWaypoints path
          = inr {| type := "LineString";
                   coordinates := decodePathValue (raw_snapped_waypoints path) |})
    as Hway by (unfold decodeWaypoints; by rewrite Hflag).
  rewrite fmap_cons. cbn [mapM]. rewrite Hdecode.
  unfold setPointsOnInstructionsValue at 1. cbn. rewrite Hpts, Hway. cbn.
  eexists. split; [reflexivity|]. constructor; [|done].
  unfold decodedFrom. cbn.
  split; [done|]. split; [done|]. split; [done|].
  unfold setPointsOnInstructions. cbn.
  destruct (raw_instructions path) as [instrs|]; [|done].
  apply Forall2_fmap_r, Forall_Forall2_diag, Forall_forall.
  intros instr _. cbn. split; [done|]. split; [done|].
  apply Forall_forall. intros p Hp. split.
  - by eapply slice_elements.
  - apply slice_elements in Hp.
    pose proof (decodePathValue_arity (raw_points path)) as Har.
    rewrite Forall_forall in Har. by apply Har.
Qed.

Lemma decodeResult_encoded_witness :
  Forall (λ path, raw_points_encoded path = true) (raw_paths encodedResponse)
  ∧ ∃ paths',
      decodeResult encodedResponse = Some paths'
      ∧ (λ path',
           (length ∘ instr_points) <$> default [] (raw_instructions path'))
          <$> paths' = [[2%nat]].
Proof.
  assert (Forall (λ path, raw_points_encoded path = true)
            (raw_paths encodedResponse)) as Hflags
    by (repeat constructor).
  split; [exact Hflags|].
  destruct (decodeResult_encoded encodedResponse Hflags)
    as (paths' & Hdecode & _).
  exists paths'. split; [exact Hdecode|].
  vm_compute in Hdecode. injection Hdecode as <-. reflexivity.
Defined.

(** [decodeResult] fails, with a [TypeError], exactly on a response with a
    path that is flagged as not encoded, whose points are a string all the
    same, and that has at least one instruction: the string has no
    [coordinates] to slice. *)
Theorem decodeResult_throws_iff (result : RawResult) :
  decodeResult result = None
  ↔ Exists (λ path,
      raw_points_encoded path = false
      ∧ (∃ encoded, raw_points path = inl encoded)
      ∧ (∃ instr instrs, raw_instructions path = Some (instr :: instrs)))
      (raw_paths result).
Proof.
  unfold decodeResult. cbv zeta.
  rewrite mapM_None, Exists_fmap.
  apply Exists_proper; [|done]. intros path. cbn.
  unfold setPointsOnInstructionsValue, decodePoints. cbn.
  destruct (raw_points_encoded path); cbn.
  { split; [done|]. by intros [? _]. }
  destruct (raw_points path) as [encoded|points]; cbn.
  - destruct (raw_instructions path) as [[|instr instrs]|]; cbn.
    + split; [done|]. by intros (_ & _ & ? & ? & ?).
    + split; [eauto 10|done].
    + split; [done|]. by intros (_ & _ & ? & ? & ?).
  - split; [done|]. by intros (_ & [? ?] & _).
Qed.

End ResultProperties.


(** ** Further properties of the query store *)

Section FurtherQueryStoreProperties.

Import QueryStore.

Variable numberToString : float → string.

(** From [reduce state action = Some (state', calls)] to the state and the
    calls of the branch taken. *)
Ltac reduce_cases H :=
  first [ rewrite reduce_AddPoint in H
        | rewrite reduce_RemovePoint in H
        | unfold reduce in H ];
  cbv zeta in H;
  try (destruct (routeIfAllPointsSet _) as [?|]; [|discriminate H]);
  cbn in H; injection H as <- <-.

(** *** What recomputing roles keeps *)

Lemma waypointData_retype (n : Z) (l : list QueryPoint) :
  waypointData <$> retype n l = waypointData <$> l.
Proof.
  apply list_eq. intros i.
  rewrite !list_lookup_fmap, lookup_retype. by destruct (l !! i).
Qed.

(** Roles and colors are recomputed from the data alone. *)
Lemma retype_data (n : Z) (l l' : list QueryPoint) :
  waypointData <$> l = waypointData <$> l' → retype n l = retype n l'.
Proof.
  intros Hdata. apply list_eq. intros i. rewrite !lookup_retype.
  assert (waypointData <$> l !! i = waypointData <$> l' !! i) as Hi
    by (by rewrite <- !list_lookup_fmap, Hdata).
  destruct (l !! i) as [q|], (l' !! i) as [q'|]; cbn in *; try done.
  injection Hi as Hid Hc Ht Hb Hp. unfold withType. by rewrite Hid, Hc, Ht, Hb, Hp.
Qed.

Lemma retype_as_specified (l : list QueryPoint) :
  rolesAsSpecified l → retype (Z.of_nat (length l)) l = l.
Proof.
  intros Hroles. apply list_eq. intros i. rewrite lookup_retype.
  destruct (l !! i) as [q|] eqn:Hq; [|done]. cbn. f_equal.
  destruct (Hroles i q Hq) as (Hfirst & Hlast & Hmid & Hcolor).
  apply lookup_lt_Some in Hq.
  assert (getPointType (Z.of_nat i) (Z.of_nat (length l)) = type q) as ->.
  { unfold getPointType.
    destruct (Z.eqb_spec (Z.of_nat i) 0);
      [|destruct (Z.eqb_spec (Z.of_nat i) (Z.of_nat (length l) - 1))];
      symmetry; [apply Hfirst|apply Hlast|apply Hmid]; lia. }
  destruct q. unfold withType. cbn in *. by rewrite Hcolor.
Qed.

Lemma insertionIndex_relativeIndex (n : nat) (atIndex : Z) :
  Z.to_nat (Js.relativeIndex (Z.of_nat n) atIndex) = insertionIndex n atIndex.
Proof.
  unfold Js.relativeIndex, insertionIndex.
  destruct (Z.ltb_spec atIndex 0); lia.
Qed.

(** *** Inserting and removing *)

(** From a state whose profile is defined, [AddPoint] completes and puts
    the new waypoint, with the id [nextId] and the
    coordinate and flag of the action, at the index [splice] computes: at
    [atIndex] when that is within the list, at the end when it is beyond,
    counted from the end when it is negative, at the front when it is below
    minus the length.  The waypoints before and after it keep their order and
    their data. *)
Theorem AddPoint_inserts_at_index (state : QueryStoreState) (atIndex : Z)
    (c : Coordinate) (b : bool) :
  is_Some (routingVehicle state) →
  ∃ state' calls,
    reduce numberToString state (AddPoint atIndex c b) = Some (state', calls)
    ∧ waypointData <$> queryPoints state'
      = let k := insertionIndex (length (queryPoints state)) atIndex in
        let text :=
          if b then numberToString (lng c) +:+ ", " +:+ numberToString (lat c)
          else "" in
        take k (waypointData <$> queryPoints state)
        ++ (nextId state, c, text, b, None)
        :: drop k (waypointData <$> queryPoints state).
Proof.
  intros Hv.
  destruct (reduce_completes numberToString state (AddPoint atIndex c b) Hv)
    as [[state' calls] Hred].
  exists state', calls. split; [done|].
  reduce_cases Hred. cbn [queryPoints]. rewrite waypointData_retype.
  unfold Js.spliceInsert. rewrite insertionIndex_relativeIndex.
  by rewrite fmap_app, fmap_cons, fmap_take, fmap_drop.
Qed.

(** From a state whose profile is defined, [RemovePoint] completes and
    removes every waypoint that has the id of the point of the action, and
    only those: what is left are the other waypoints, in order and with
    their data, and the id is gone. *)
Theorem RemovePoint_removes_by_id (state : QueryStoreState) (p : QueryPoint) :
  is_Some (routingVehicle state) →
  ∃ state' calls,
    reduce numberToString state (RemovePoint p) = Some (state', calls)
    ∧ waypointData <$> queryPoints state'
      = waypointData <$> filter (λ q, id q ≠ id p) (queryPoints state)
    ∧ (id p ∉ id <$> queryPoints state')
    ∧ nextId state' = nextId state.
Proof.
  intros Hv.
  destruct (reduce_completes numberToString state (RemovePoint p) Hv)
    as [[state' calls] Hred].
  exists state', calls. split; [done|].
  reduce_cases Hred. cbn [queryPoints nextId].
  split; [apply waypointData_retype|]. split; [|done].
  rewrite ids_retype. intros (q & Hid & Hq)%list_elem_of_fmap.
  apply list_elem_of_filter in Hq as [Hne _]. by rewrite Hid in Hne.
Qed.

Lemma data_filter (x : Z) (l l' : list QueryPoint) :
  waypointData <$> l' = waypointData <$> l →
  waypointData <$> filter (λ q, id q ≠ x) l'
  = waypointData <$> filter (λ q, id q ≠ x) l.
Proof.
  revert l'. induction l as [|q l IH]; intros [|q' l'] Hdata; try done.
  rewrite !fmap_cons in Hdata. injection Hdata as Hid Hc Ht Hb Hp Hl.
  assert (waypointData q' = waypointData q) as Hq
    by (unfold waypointData; congruence).
  destruct (decide (id q = x)) as [Heq|Hne].
  - rewrite !filter_cons_False by (intros ?; congruence). by apply IH.
  - rewrite !filter_cons_True by congruence.
    rewrite !fmap_cons, Hq. f_equal. by apply IH.
Qed.

Lemma receive_completed (state : QueryStoreState) (action : Action)
    (state' : QueryStoreState) (calls : list Api.RoutingArgs) :
  reduce numberToString state action = Some (state', calls) →
  receive numberToString state action = (state', calls).
Proof. intros Hred. unfold receive. by rewrite Hred. Qed.

(** Inserting a waypoint and removing it again restores the waypoints,
    roles and colors included, in a state whose profile is defined, whose
    ids are distinct and below [nextId], whose [nextId] is below 2^53 in
    magnitude (where the sum of ids is the integer sum) and whose roles are
    as specified; [nextId] stays advanced. *)
Theorem AddPoint_RemovePoint_restores (state : QueryStoreState) (atIndex : Z)
    (c : Coordinate) (b : bool) (p : QueryPoint) :
  idsFresh state → rolesAsSpecified (queryPoints state) →
  is_Some (routingVehicle state) → - 2 ^ 53 ≤ nextId state < 2 ^ 53 →
  id p = nextId state →
  let final :=
    (session numberToString state [AddPoint atIndex c b; RemovePoint p]).1 in
  queryPoints final = queryPoints state
  ∧ nextId final = nextId state + 1
  ∧ routingVehicle final = routingVehicle state.
Proof.
  intros [Hnd Hlt] Hroles Hv _ Hp. cbv zeta.
  rewrite !session_cons. cbn [session fst].
  destruct (reduce_completes numberToString state (AddPoint atIndex c b) Hv)
    as [[state1 calls1] Hadd].
  rewrite (receive_completed _ _ _ _ Hadd). cbn [fst].
  assert (routingVehicle state1 = routingVehicle state) as Hv1
    by exact (reduce_keeps_profile numberToString state
                (AddPoint atIndex c b) state1 calls1 eq_refl Hadd).
  assert (is_Some (routingVehicle state1)) as Hv1' by (by rewrite Hv1).
  destruct (reduce_completes numberToString state1 (RemovePoint p) Hv1')
    as [[state2 calls2] Hremove].
  rewrite (receive_completed _ _ _ _ Hremove). cbn [fst].
  reduce_cases Hremove. cbn [queryPoints nextId routingVehicle].
  reduce_cases Hadd. cbn [queryPoints nextId routingVehicle] in *.
  split; [|done].
  set (new := {| coordinate := c; id := nextId state |}).
  set (tmp := Js.spliceInsert (queryPoints state) atIndex new).
  assert (length tmp = S (length (queryPoints state))) as Htmp.
  { unfold tmp, Js.spliceInsert. rewrite length_app. cbn [length].
    rewrite length_take, length_drop.
    rewrite insertionIndex_relativeIndex. unfold insertionIndex.
    destruct (Z.ltb_spec atIndex 0); lia. }
  assert (filter (λ q, id q ≠ id p) tmp = queryPoints state) as Hfilter.
  { unfold tmp, Js.spliceInsert. rewrite filter_app.
    rewrite filter_cons_False by (cbn; intros ?; congruence).
    rewrite <- filter_app, take_drop. apply filter_absent_id.
    rewrite Hp. intros Hin. rewrite Forall_forall in Hlt.
    specialize (Hlt _ Hin). lia. }
  rewrite length_retype, Htmp.
  replace (Z.of_nat (S (length (queryPoints state))) - 1)
    with (Z.of_nat (length (queryPoints state))) by lia.
  etrans; [|exact (retype_as_specified (queryPoints state) Hroles)].
  apply retype_data.
  etrans; [apply data_filter, waypointData_retype|]. by rewrite Hfilter.
Qed.

(** *** Replacing by id *)

Lemma replace_absent (l : list QueryPoint) (p : QueryPoint) :
  id p ∉ id <$> l → replace l p = l.
Proof.
  intros Habsent. unfold replace.
  rewrite <- (list_fmap_id l) at 2. apply list_fmap_ext.
  intros i q Hq. cbn.
  destruct (Z.eqb_spec (id q) (id p)) as [Heq|]; [|done].
  destruct Habsent. rewrite <- Heq.
  apply list_elem_of_fmap_2. by eapply list_elem_of_lookup_2.
Qed.

Lemma replace_replace (l : list QueryPoint) (p p' : QueryPoint) :
  id p = id p' → replace (replace l p) p' = replace l p'.
Proof.
  intros Hid. unfold replace. rewrite <- list_fmap_compose.
  apply list_fmap_ext. intros i q _. cbn. rewrite Hid.
  destruct (Z.eqb_spec (id q) (id p')) as [Heq|Hne].
  - by rewrite Hid, Z.eqb_refl.
  - by destruct (Z.eqb_spec (id q) (id p')).
Qed.

(** A [SetPoint] or an [InvalidatePoint] for an id that no waypoint has
    changes nothing in the state held. *)
Theorem replacing_absent_id_changes_nothing (state : QueryStoreState)
    (p : QueryPoint) :
  id p ∉ id <$> queryPoints state →
  queryPoints (receive numberToString state (SetPoint p)).1 = queryPoints state
  ∧ queryPoints (receive numberToString state (InvalidatePoint p)).1
    = queryPoints state.
Proof.
  intros Habsent. unfold receive. split.
  - destruct (reduce numberToString state (SetPoint p)) as [[state' calls]|]
      eqn:Hred; [|done].
    reduce_cases Hred. cbn. by apply replace_absent.
  - cbn. by apply replace_absent.
Qed.

(** Of two [SetPoint]s in a row for the same id only the second counts. *)
Theorem SetPoint_last_wins (state : QueryStoreState) (p p' : QueryPoint) :
  is_Some (routingVehicle state) → id p = id p' →
  (session numberToString state [SetPoint p; SetPoint p']).1
  = (session numberToString state [SetPoint p']).1.
Proof.
  intros Hv Hid. rewrite !session_cons. cbn [session fst].
  destruct (reduce_completes numberToString state (SetPoint p) Hv)
    as [[state1 calls1] Hfirst].
  rewrite (receive_completed _ _ _ _ Hfirst). cbn [fst].
  reduce_cases Hfirst. unfold receive, reduce.
  cbn [queryPoints nextId routingVehicle]. rewrite replace_replace by done.
  destruct Hv as [v Hv].
  destruct (routeIfAllPointsSet_calls
              {| queryPoints := replace (queryPoints state) p';
                 nextId := nextId state;
                 routingVehicle := routingVehicle state |} v Hv)
    as (calls & -> & _).
  done.
Qed.

(** *** What blocks a route, and what makes a transition fail *)

(** Invalidating a waypoint that is there leaves a state that is not ready
    for routing, so that choosing a vehicle afterwards requests no route. *)
Theorem InvalidatePoint_blocks_routing (state : QueryStoreState)
    (p : QueryPoint) :
  id p ∈ id <$> queryPoints state →
  ∃ state',
    reduce numberToString state (InvalidatePoint p) = Some (state', [])
    ∧ ¬ routeReady state'
    ∧ ∀ v, reduce numberToString state' (SetVehicle v)
           = Some (withProfile state' v, []).
Proof.
  intros Hin. eexists. split; [reflexivity|].
  set (state' := {| queryPoints := _ |}).
  assert (¬ routeReady state') as Hnot.
  { intros [_ Hall]. subst state'. cbn in Hall.
    apply list_elem_of_fmap in Hin as (q & Hid & Hq).
    apply list_elem_of_lookup in Hq as [i Hq].
    rewrite Forall_forall in Hall.
    specialize (Hall {| coordinate := coordinate p; queryText := queryText p;
                        color := color p; id := id p; type := type p;
                        point := point p; isInitialized := false |}).
    cbn in Hall. discriminate Hall.
    apply (list_elem_of_lookup_2 _ i). unfold replace.
    rewrite list_lookup_fmap, Hq. cbn. rewrite <- Hid. by rewrite Z.eqb_refl. }
  split; [done|]. intros v. unfold reduce.
  cbv zeta. unfold routeIfAllPointsSet.
  pose proof (routeReady_guard (withProfile state' v)) as Hg.
  cbn [queryPoints withProfile] in Hg |- *.
  destruct (_ && _); [|done].
  destruct Hnot. destruct Hg as [Hg _]. specialize (Hg eq_refl).
  exact Hg.
Qed.

(** A transition fails exactly when the profile is undefined, the action
    is a [SetPoint], [AddPoint] or [RemovePoint], and the same action would
    request a route if a profile were there. *)
Theorem reduce_throws_iff (state : QueryStoreState) (action : Action)
    (v : Api.RoutingVehicle) :
  reduce numberToString state action = None
  ↔ routingVehicle state = None
    ∧ (∀ v', action ≠ SetVehicle v')
    ∧ ∃ state' calls,
        reduce numberToString (withProfile state v) action = Some (state', calls)
        ∧ calls ≠ [].
Proof.
  assert (∀ (state1 state2 : QueryStoreState) (none_found : Prop),
    (Some (state1, @nil Api.RoutingArgs) = None
     ↔ routingVehicle state = None ∧ none_found
       ∧ ∃ state'' calls,
           Some (state2, @nil Api.RoutingArgs) = Some (state'', calls)
           ∧ calls ≠ [])) as Hquiet.
  { intros state1 state2 ?. split; [done|].
    intros (_ & _ & ? & calls & Heq & Hne). by simplify_eq. }
  destruct action as [result|p|vehicle|atIndex c b| |p|p|result| ];
    try apply Hquiet;
    rewrite ?reduce_AddPoint, ?reduce_RemovePoint;
    unfold reduce; cbv zeta; unfold routeIfAllPointsSet;
    cbn [queryPoints nextId routingVehicle withProfile];
    match goal with
    | |- context [if ?g1 && ?g2 then _ else _] => destruct (g1 && g2)
    end; cbn.
  (* SetVehicle *)
  3, 4: split; [done|]; intros (_ & Hset & _); by destruct (Hset vehicle).
  (* SetPoint, AddPoint, RemovePoint: not ready *)
  2, 4, 6: split; [by destruct (routingVehicle state)|];
    intros (_ & _ & ? & calls & Heq & Hne); by simplify_eq.
  (* ready *)
  all: destruct (routingVehicle state) as [v0|]; cbn;
    (split; [try done|by intros [? _]]);
    intros _; split; [done|]; split; [done|]; by eexists _, _.
Qed.

(** *** The requests the store makes *)

Lemma routeIfAllPointsSet_two_points (state : QueryStoreState)
    (calls : list Api.RoutingArgs) :
  routeIfAllPointsSet state = Some calls →
  Forall (λ args, (2 ≤ length (Api.points args))%nat) calls.
Proof.
  unfold routeIfAllPointsSet.
  destruct (_ && _) eqn:Hg; [|by intros [= <-]].
  destruct (routingVehicle state); [|done]. intros [= <-].
  repeat constructor. cbn. rewrite length_fmap.
  apply andb_true_iff in Hg as [Hg _]. apply Z.ltb_lt in Hg. lia.
Qed.

(** The body of the request for a call the store makes: the coordinates
    of the waypoints in order, at least two, the key of the profile (["car"]
    for the empty key), and [points_encoded] true although the store passes
    [false].  The store makes no call at all only when the profile is
    undefined or the state is not ready. *)
Theorem store_request_body (state : QueryStoreState) :
  match routeIfAllPointsSet state with
  | Some calls =>
      (calls = [] ↔ ¬ routeReady state)
      ∧ Forall (λ args,
          let request := Api.createRequest args in
          Api.args_points_encoded args = Some false
          ∧ Api.points_encoded request = true
          ∧ Api.req_points request
            = (λ p, (lng (coordinate p), lat (coordinate p)))
                <$> queryPoints state
          ∧ (2 ≤ length (Api.req_points request))%nat
          ∧ ∃ v, routingVehicle state = Some v
              ∧ Api.req_vehicle request
                = if decide (Api.vehicle_key v = "") then "car"
                  else Api.vehicle_key v) calls
  | None => routingVehicle state = None ∧ routeReady state
  end.
Proof.
  pose proof (routeReady_guard state) as Hg. unfold routeIfAllPointsSet.
  destruct (_ && _) eqn:Hguard.
  - destruct Hg as [Hg _]. specialize (Hg eq_refl).
    destruct (routingVehicle state) as [v|] eqn:Hv; cbn; [|done].
    split; [split; [done|tauto]|].
    repeat constructor; cbn.
    + rewrite length_fmap. apply Hg.
    + exists v. split; [done|]. unfold Api.orString.
      case_decide as Hkey; [by rewrite Hkey|].
      by destruct (String.eqb_spec (Api.vehicle_key v) "").
  - split; [|constructor]. split; [|done].
    intros _ Hr. apply Hg in Hr. done.
Qed.

Lemma reduce_two_points (state : QueryStoreState) (action : Action)
    (state' : QueryStoreState) (calls : list Api.RoutingArgs) :
  reduce numberToString state action = Some (state', calls) →
  Forall (λ args, (2 ≤ length (Api.points args))%nat) calls.
Proof.
  intros Hred.
  destruct action;
    first [ rewrite reduce_AddPoint in Hred
          | rewrite reduce_RemovePoint in Hred
          | unfold reduce in Hred ];
    cbv zeta in Hred;
    try (injection Hred as <- <-; constructor);
    (destruct (routeIfAllPointsSet _) as [calls'|] eqn:Hroute;
     [|discriminate Hred]);
    cbn in Hred; injection Hred as <- <-;
    by eapply routeIfAllPointsSet_two_points.
Qed.

(** In no session, from whatever state, does the store request a route
    through fewer than two points. *)
Theorem session_requests_two_points (state : QueryStoreState)
    (actions : list Action) :
  Forall (λ args, (2 ≤ length (Api.points args))%nat)
    (session numberToString state actions).2.
Proof.
  revert state. induction actions as [|action actions IH]; intros state.
  { constructor. }
  cbn [session]. unfold receive.
  destruct (reduce numberToString state action) as [[state' calls]|] eqn:Hred.
  - specialize (IH state').
    destruct (session numberToString state' actions) as [final calls'].
    cbn in *. apply Forall_app. split; [|done].
    by eapply reduce_two_points.
  - specialize (IH state).
    destruct (session numberToString state actions) as [final calls'].
    done.
Qed.

(** *** Roles along sessions from the initial state *)

Lemma initial_idsFresh : idsFresh getInitialState.
Proof.
  split; cbn; [|repeat constructor; lia].
  apply NoDup_cons. split; [|apply NoDup_singleton].
  intros [?|Hi%elem_of_nil]%elem_of_cons; done.
Qed.

(** From the initial state, insertions and removals keep the first
    waypoint the start, the last of at least two the end, the others vias
    and the colors those of the roles, provided every removal names a
    waypoint that is there when it is applied. *)
Theorem roles_hold_from_initial_state (actions : list Action) :
  Forall (λ action, isAddOrRemove action = true) actions →
  removalsPresent numberToString getInitialState actions →
  rolesAsSpecified
    (queryPoints (session numberToString getInitialState actions).1).
Proof.
  intros Hkind Hpresent.
  apply roles_kept_when_removals_present;
    [done|apply initial_idsFresh|eexists; reflexivity|apply initial_roles|done].
Qed.

End FurtherQueryStoreProperties.


(** ** The further properties on concrete sessions *)

Section FurtherExamples.

Import QueryStore.

Lemma AddPoint_inserts_at_index_witness :
  is_Some (routingVehicle getInitialState)
  ∧ ∃ state' calls,
      reduce constantToString getInitialState
        (AddPoint (-1) {| lat := 50; lng := 12 |} false) = Some (state', calls)
      ∧ (λ q, (id q, type q)) <$> queryPoints state'
        = [(0, From); (2, Via); (1, To)].
Proof.
  split; [eexists; reflexivity|].
  destruct (AddPoint_inserts_at_index constantToString getInitialState (-1)
              {| lat := 50; lng := 12 |} false (ex_intro _ _ eq_refl))
    as (state' & calls & Hred & _).
  exists state', calls. split; [exact Hred|].
  vm_compute in Hred. injection Hred as <- <-. reflexivity.
Defined.

Lemma RemovePoint_removes_by_id_witness :
  is_Some (routingVehicle getInitialState)
  ∧ ∃ state' calls,
      reduce constantToString getInitialState
        (RemovePoint (getEmptyPoint 0 From)) = Some (state', calls)
      ∧ (λ q, (id q, type q)) <$> queryPoints state' = [(1, From)].
Proof.
  split; [eexists; reflexivity|].
  destruct (RemovePoint_removes_by_id constantToString getInitialState
              (getEmptyPoint 0 From) (ex_intro _ _ eq_refl))
    as (state' & calls & Hred & _).
  exists state', calls. split; [exact Hred|].
  vm_compute in Hred. injection Hred as <- <-. reflexivity.
Defined.

Lemma AddPoint_RemovePoint_restores_witness :
  idsFresh getInitialState
  ∧ rolesAsSpecified (queryPoints getInitialState)
  ∧ is_Some (routingVehicle getInitialState)
  ∧ - 2 ^ 53 ≤ nextId getInitialState < 2 ^ 53
  ∧ id (getEmptyPoint 2 Via) = nextId getInitialState
  ∧ queryPoints
      (session constantToString getInitialState
         [ AddPoint 1 {| lat := 50; lng := 12 |} true;
           RemovePoint (getEmptyPoint 2 Via) ]).1
    = queryPoints getInitialState.
Proof.
  assert (- 2 ^ 53 ≤ nextId getInitialState < 2 ^ 53) as Hrange
    by (vm_compute; split; [discriminate|reflexivity]).
  split; [exact initial_idsFresh|]. split; [exact initial_roles|].
  split; [eexists; reflexivity|]. split; [exact Hrange|].
  split; [reflexivity|].
  exact (proj1 (AddPoint_RemovePoint_restores constantToString getInitialState
                  1 {| lat := 50; lng := 12 |} true (getEmptyPoint 2 Via)
                  initial_idsFresh initial_roles (ex_intro _ _ eq_refl)
                  Hrange eq_refl)).
Defined.

Lemma replacing_absent_id_witness :
  (7 ∉ id <$> queryPoints getInitialState)
  ∧ queryPoints
      (receive constantToString getInitialState
         (SetPoint (getEmptyPoint 7 Via))).1
    = queryPoints getInitialState.
Proof.
  assert (id (getEmptyPoint 7 Via) ∉ id <$> queryPoints getInitialState)
    as Habsent.
  { cbn. intros [?|[?|?%elem_of_nil]%elem_of_cons]%elem_of_cons; done. }
  split; [exact Habsent|].
  exact (proj1 (replacing_absent_id_changes_nothing constantToString
                  getInitialState (getEmptyPoint 7 Via) Habsent)).
Defined.

Lemma SetPoint_last_wins_witness :
  is_Some (routingVehicle getInitialState)
  ∧ id endPoint = id (getEmptyPoint 1 To)
  ∧ (session constantToString getInitialState
       [SetPoint endPoint; SetPoint (getEmptyPoint 1 To)]).1
    = getInitialState.
Proof.
  split; [eexists; reflexivity|]. split; [reflexivity|].
  rewrite (SetPoint_last_wins constantToString getInitialState endPoint
             (getEmptyPoint 1 To) (ex_intro _ _ eq_refl) eq_refl).
  reflexivity.
Defined.

Lemma InvalidatePoint_blocks_routing_witness :
  id endPoint ∈ id <$> queryPoints bothSet
  ∧ ∃ state',
      reduce constantToString bothSet (InvalidatePoint endPoint)
      = Some (state', [])
      ∧ reduce constantToString state' (SetVehicle carProfile)
        = Some (withProfile state' carProfile, []).
Proof.
  assert (id endPoint ∈ id <$> queryPoints bothSet) as Hin.
  { apply (list_elem_of_lookup_2 _ 1%nat). reflexivity. }
  split; [exact Hin|].
  destruct (InvalidatePoint_blocks_routing constantToString bothSet endPoint Hin)
    as (state' & Hred & _ & Hvehicle).
  exists state'. split; [exact Hred|]. apply Hvehicle.
Defined.

Lemma roles_hold_from_initial_state_witness :
  Forall (λ action, isAddOrRemove action = true)
    [ AddPoint 1 {| lat := 50; lng := 12 |} false;
      RemovePoint (getEmptyPoint 0 From) ]
  ∧ removalsPresent constantToString getInitialState
      [ AddPoint 1 {| lat := 50; lng := 12 |} false;
        RemovePoint (getEmptyPoint 0 From) ]
  ∧ rolesAsSpecified
      (queryPoints
         (session constantToString getInitialState
            [ AddPoint 1 {| lat := 50; lng := 12 |} false;
              RemovePoint (getEmptyPoint 0 From) ]).1).
Proof.
  assert (Forall (λ action, isAddOrRemove action = true)
            [ AddPoint 1 {| lat := 50; lng := 12 |} false;
              RemovePoint (getEmptyPoint 0 From) ]) as Hkind
    by (repeat constructor).
  assert (removalsPresent constantToString getInitialState
            [ AddPoint 1 {| lat := 50; lng := 12 |} false;
              RemovePoint (getEmptyPoint 0 From) ]) as Hpresent.
  { split; [done|]. split; [|done].
    apply (list_elem_of_lookup_2 _ 0%nat). reflexivity. }
  split; [exact Hkind|]. split; [exact Hpresent|].
  exact (roles_hold_from_initial_state constantToString _ Hkind Hpresent).
Defined.

End FurtherExamples.


(** ** Further properties: reading the service information *)

Section InfoProperties.

Import ApiInfoResponse.

Variable inherited : Json → string → bool.

#[local] Instance unexpectedName_dec features name :
  Decision (unexpectedName features name).
Proof. unfold unexpectedName. apply _. Defined.

Lemma member_absent (name : string) (members : list (string * Json)) :
  name ∉ members.*1 → member name members = None.
Proof.
  unfold member. induction members as [|[n v] members IH]; [done|].
  rewrite fmap_cons. intros [Hne Habsent]%not_elem_of_cons. cbn.
  destruct (String.eqb_spec n name) as [->|_]; [done|]. by apply IH.
Qed.

Lemma member_head (name : string) (value : Json)
    (members : list (string * Json)) :
  member name ((name, value) :: members) = Some value.
Proof. unfold member. cbn. by rewrite String.eqb_refl. Qed.

Lemma member_tail (name n : string) (value : Json)
    (members : list (string * Json)) :
  n ≠ name → member name ((n, value) :: members) = member name members.
Proof.
  intros Hne. unfold member. cbn.
  by destruct (String.eqb_spec n name).
Qed.

(** The loop over a response whose features are an object, none of whose
    member names is answered by a prototype, and whose members named in the
    features are not null. *)
Lemma visitAll_object (features : list (string * Json))
    (members : list (string * Json)) (info : ApiInfoValue) :
  Forall (λ m, inherited (JObject features) m.1 = false
               ∧ (is_Some (member m.1 features) → m.2 ≠ JNull)) members →
  NoDup members.*1 →
  ∃ info',
    visitAll inherited (Some (JObject features)) info members = Some info'
    ∧ info_vehicles info'
      = info_vehicles info
        ++ (vehicleOf features
              <$> filter (λ m, is_Some (member m.1 features)) members)
    ∧ info_log info'
      = info_log info
        ++ ((λ m, "unexpected property name: " +:+ m.1)
              <$> filter (λ m, unexpectedName features m.1) members)
    ∧ info_bbox info' = scalarOf features members "bbox" (info_bbox info)
    ∧ info_version info'
      = scalarOf features members "version" (info_version info)
    ∧ info_import_date info'
      = scalarOf features members "import_date" (info_import_date info).
Proof.
  revert info. induction members as [|[name value] members IH];
    intros info Hall Hnd.
  { exists info. unfold scalarOf. cbn.
    rewrite !app_nil_r. repeat case_decide; done. }
  apply Forall_cons in Hall as [[Hinh Hnull] Hall].
  rewrite fmap_cons in Hnd. apply NoDup_cons in Hnd as [Hfresh Hnd].
  cbn [fst snd] in *.
  assert (∀ n initial, n ≠ name →
    scalarOf features ((name, value) :: members) n initial
    = scalarOf features members n initial) as Hkeep.
  { intros n initial Hne. unfold scalarOf. case_decide; [done|].
    by rewrite member_tail. }
  destruct (decide (is_Some (member name features))) as [Hprofile|Hother].
  - rewrite filter_cons_True by done.
    rewrite filter_cons_False by (by intros [? _]).
    assert (∀ n initial,
      scalarOf features ((name, value) :: members) n initial
      = scalarOf features members n initial) as Hscalar.
    { intros n initial. unfold scalarOf. case_decide as Hn; [done|].
      rewrite member_tail; [done|]. by intros ->. }
    rewrite !Hscalar, fmap_cons.
    cbn [visitAll]. unfold visit. cbn [hasProperty].
    rewrite Hinh, orb_false_r, bool_decide_true by done. cbn [mbind option_bind].
    assert (readField value "version"
            = Some (vehicle_version (vehicleOf features (name, value)))
            ∧ readField value "import_date"
              = Some (vehicle_import_date (vehicleOf features (name, value))))
      as [-> ->].
    { specialize (Hnull Hprofile). by destruct value. }
    cbn [mbind option_bind].
    edestruct IH as (info' & -> & Hv & Hl & Hb & Hver & Hdate); [done..|].
    exists info'. split; [done|].
    cbn [info_vehicles info_log info_bbox info_version info_import_date]
      in Hv, Hl, Hb, Hver, Hdate.
    rewrite Hv, Hl, Hb, Hver, Hdate, <- app_assoc.
    split; [|done]. cbn [app]. do 2 f_equal.
    unfold vehicleOf. cbn [fst snd]. f_equal.
    unfold getProperty. rewrite Hinh. by destruct (member name features).
  - assert (∀ initial,
      scalarOf features ((name, value) :: members) name initial
      = scalarOf features members name value) as Hset.
    { intros initial. unfold scalarOf. rewrite !decide_False by done.
      by rewrite member_head, member_absent. }
    rewrite (filter_cons_False (λ m, is_Some (member m.1 features))) by done.
    cbn [visitAll]. unfold visit. cbn [hasProperty].
    rewrite Hinh, orb_false_r, bool_decide_false by done.
    cbn [mbind option_bind].
    destruct (String.eqb_spec name "bbox") as [->|Hbbox];
      [|destruct (String.eqb_spec name "version") as [->|Hversion];
        [|destruct (String.eqb_spec name "import_date") as [->|Hdate];
          [|destruct (String.eqb_spec name "features") as [->|Hfeatures]]]];
      cbn [negb mbind option_bind];
      first [ rewrite filter_cons_True
                by (split; [done|];
                    intros [?|[?|[?|[?|?%elem_of_nil]%elem_of_cons]%elem_of_cons]
                              %elem_of_cons]%elem_of_cons; done)
            | rewrite filter_cons_False
                by (intros [_ Hn]; apply Hn;
                    repeat first [ apply list_elem_of_here
                                 | apply list_elem_of_further ]) ];
      rewrite ?Hset, ?Hkeep by done;
      (edestruct IH as (info' & -> & Hv & Hl & Hb & Hver & Hd); [done..|]);
      exists info'; (split; [done|]);
      cbn [info_vehicles info_log info_bbox info_version info_import_date]
        in Hv, Hl, Hb, Hver, Hd;
      rewrite Hv, Hl, Hb, Hver, Hd, ?fmap_cons, <- ?app_assoc; done.
Qed.

(** For a response whose features are an object, with no member named
    like a member of a prototype and no null member among those named in
    the features, [convertToApiInfo] returns one vehicle for every member of
    the response that is named in the features, in the order of the
    response, with the feature of that name and the version and import date
    of the member.  A feature without a member of its name gives no vehicle,
    and neither does a member without a feature. *)
Theorem convertToApiInfo_vehicles (response features : list (string * Json)) :
  member "features" response = Some (JObject features) →
  Forall (λ m, inherited (JObject features) m.1 = false
               ∧ (is_Some (member m.1 features) → m.2 ≠ JNull)) response →
  NoDup response.*1 →
  ∃ info,
    convertToApiInfo inherited response = Some info
    ∧ info_vehicles info
      = vehicleOf features
          <$> filter (λ m, is_Some (member m.1 features)) response.
Proof.
  intros Hfeatures Hall Hnd. unfold convertToApiInfo. cbv zeta.
  rewrite Hfeatures.
  edestruct (visitAll_object features response) as (info & -> & Hv & _);
    [done..|].
  exists info. split; [done|]. by rewrite Hv.
Qed.

(** Under the same conditions, the bounding box, the version and the
    import date of the result are the members of these names, unless the
    name is also a name of the features or the response has no such member:
    then the default stays.  One line is logged for every other member that
    is neither named in the features nor the features themselves. *)
Theorem convertToApiInfo_scalars_and_log
    (response features : list (string * Json)) :
  member "features" response = Some (JObject features) →
  Forall (λ m, inherited (JObject features) m.1 = false
               ∧ (is_Some (member m.1 features) → m.2 ≠ JNull)) response →
  NoDup response.*1 →
  ∃ info,
    convertToApiInfo inherited response = Some info
    ∧ info_bbox info
      = scalarOf features response "bbox"
          (JArray [JNumber 0; JNumber 0; JNumber 0; JNumber 0])
    ∧ info_version info = scalarOf features response "version" (JString "")
    ∧ info_import_date info
      = scalarOf features response "import_date" (JString "")
    ∧ info_log info
      = (λ m, "unexpected property name: " +:+ m.1)
          <$> filter (λ m, unexpectedName features m.1) response.
Proof.
  intros Hfeatures Hall Hnd. unfold convertToApiInfo. cbv zeta.
  rewrite Hfeatures.
  edestruct (visitAll_object features response)
    as (info & -> & _ & Hl & Hb & Hver & Hdate); [done..|].
  exists info. split; [done|]. by rewrite Hl, Hb, Hver, Hdate.
Qed.

(** When the features of the response are missing or are no object (and no
    array), [convertToApiInfo] fails on the first member it visits, with a
    [TypeError] of the [in] operator: it returns, with the defaults, only
    for a response without any member. *)
Theorem convertToApiInfo_needs_features (response : list (string * Json)) :
  (∀ features, member "features" response ≠ Some (JObject features)) →
  (∀ items, member "features" response ≠ Some (JArray items)) →
  (convertToApiInfo inherited response = None ↔ response ≠ []).
Proof.
  intros Hobject Harray. unfold convertToApiInfo. cbv zeta.
  assert (∀ name, hasProperty inherited (member "features" response) name
                  = None) as Hin.
  { intros name. destruct (member "features" response) as [[]|]; try done.
    - by destruct (Harray items).
    - by destruct (Hobject members). }
  destruct response as [|[name value] response]; [done|].
  cbn [visitAll]. unfold visit at 1. rewrite Hin. done.
Qed.

End InfoProperties.


(** ** Reading a concrete reply *)

Section InfoExamples.

Import ApiInfoResponse.

Lemma infoReply_wellformed :
  Forall (λ m,
    nothingInherited
      (JObject [ ("car", JObject [("elevation", JBool false)]);
                 ("bike", JObject [("elevation", JBool true)]) ]) m.1 = false
    ∧ (is_Some (member m.1
                  [ ("car", JObject [("elevation", JBool false)]);
                    ("bike", JObject [("elevation", JBool true)]) ]) →
       m.2 ≠ JNull)) infoReply.
Proof.
  repeat constructor; cbn; try done; by intros [? ?].
Defined.

Lemma infoReply_distinct : NoDup infoReply.*1.
Proof. apply (bool_decide_unpack _). vm_compute. exact I. Defined.

Lemma convertToApiInfo_vehicles_witness :
  ∃ info,
    convertToApiInfo nothingInherited infoReply = Some info
    ∧ info_vehicles info
      = [ {| vehicle_features := Value (JObject [("elevation", JBool false)]);
             vehicle_version := Value (JString "1_car");
             vehicle_import_date := Value (JString "2020-05-01");
             vehicle_key := "car" |} ].
Proof.
  destruct (convertToApiInfo_vehicles nothingInherited infoReply _ eq_refl
              infoReply_wellformed infoReply_distinct)
    as (info & Hinfo & Hvehicles).
  exists info. split; [exact Hinfo|].
  rewrite Hvehicles. reflexivity.
Defined.

Lemma convertToApiInfo_scalars_and_log_witness :
  ∃ info,
    convertToApiInfo nothingInherited infoReply = Some info
    ∧ info_version info = JString "1.0"
    ∧ info_import_date info = JString ""
    ∧ info_log info = ["unexpected property name: hints"].
Proof.
  destruct (convertToApiInfo_scalars_and_log nothingInherited infoReply _
              eq_refl infoReply_wellformed infoReply_distinct)
    as (info & Hinfo & _ & Hversion & Hdate & Hlog).
  exists info. split; [exact Hinfo|].
  rewrite Hversion, Hdate, Hlog. repeat split.
Defined.

Lemma convertToApiInfo_needs_features_witness :
  convertToApiInfo nothingInherited [("version", JString "1.0")] = None.
Proof.
  apply (convertToApiInfo_needs_features nothingInherited
           [("version", JString "1.0")]); done.
Defined.

End InfoExamples.
